(** * An eight-channel triac dimmer: firing schedule, dispatcher, zero-cross sync

    Shallow embedding of the Arduino Nano (ATmega328P) firmware.  Two
    generations of the program live in the repository:

    - the comparator-driven one (sorted [commands] queue, handler
      [ISR(TIMER1_COMPA_vect)], 16-bit counter [TCNT1]), modelled at top
      level; its file still carries the fixed-period handler [timerIsr],
      no longer attached;
    - the older fixed-period one ([timerIsr] attached through TimerOne,
      8-bit [clock_tick]), modelled in the module [Legacy].

    On this target [int] is 16 bits wide, [unsigned char] 8 bits, and
    [float] is IEEE binary32. *)

From Stdlib Require Import ZArith QArith Qround Lia Lqa Ascii.
From stdpp Require Import base list sorting gmap.

Local Open Scope Z_scope.

(** ** Machine integers *)

(** [unsigned char]: arithmetic is done on the promoted [int] and the result
    is reduced modulo 256 when it is stored back. *)
Definition wrap_u8 (z : Z) : Z := z mod 256.

(** [uint16_t] / [unsigned int]. *)
Definition wrap_u16 (z : Z) : Z := z mod 65536.

(** [int] / [int16_t], two's complement. *)
Definition wrap_i16 (z : Z) : Z := (z + 32768) mod 65536 - 32768.

Definition in_i16 (z : Z) : Prop := -32768 <= z <= 32767.

(** ** Floating point

    The firmware computes the firing delay in [float].  Every float
    operation is the exact operation followed by a rounding.  The rounding
    is kept abstract: all that is used is that it is monotone and leaves
    integers of magnitude at most 2^24 unchanged, two facts that hold of
    binary32 round-to-nearest.  Exact rational arithmetic is one instance. *)
Class Rounding := {
  rnd : Q -> Q;
  rnd_mono : forall a b : Q, (a <= b)%Q -> (rnd a <= rnd b)%Q;
  rnd_int : forall z : Z, Z.abs z <= 16777216 -> (rnd (inject_Z z) == inject_Z z)%Q
}.

(** Conversion of a float to an integer discards the fraction. *)
Definition Qtrunc (q : Q) : Z :=
  if Qle_bool 0 q then Qfloor q else Qceiling q.

(** [int v = f;]  C leaves the conversion undefined when the truncated value
    does not fit an [int]; the model wraps there, and every theorem that
    could see the difference carries a range hypothesis. *)
Definition float_to_int (q : Q) : Z := wrap_i16 (Qtrunc q).

(** ** Program state: the globals of the sketch and the hardware registers *)

Definition HIGH : bool := true.
Definition LOW : bool := false.

(** [const int pin_assignments[] = {9, 8, 7, 6, 5, 4, 3, 10};] *)
Definition pin_assignments : list Z := [9; 8; 7; 6; 5; 4; 3; 10].

(** [int led = 13;] *)
Definition led : Z := 13.

Record state := mkState {
  lux : list Z;                 (* int lux[8] *)
  clock_tick : Z;               (* unsigned char *)
  delay_time : Z;               (* unsigned int *)
  low : Z;                      (* unsigned char *)
  high : Z;                     (* unsigned char *)
  off : Z;                      (* unsigned char *)
  commands : list Z;            (* uint16_t commands[8] *)
  next_command : Z;             (* int *)
  toggly_State : bool;
  previous_zero_cross : Z;      (* uint16_t *)
  t : Z;                        (* int *)
  TCNT1 : Z;                    (* 16-bit free-running hardware counter *)
  OCR1A : Z;                    (* 16-bit compare-match register *)
  pins : gmap Z bool;           (* level of each digital output *)
  writes : list (Z * bool)      (* every digitalWrite so far, oldest first *)
}.

Definition set_lux v s := mkState v (clock_tick s) (delay_time s) (low s) (high s) (off s) (commands s) (next_command s) (toggly_State s) (previous_zero_cross s) (t s) (TCNT1 s) (OCR1A s) (pins s) (writes s).
Definition set_clock_tick v s := mkState (lux s) v (delay_time s) (low s) (high s) (off s) (commands s) (next_command s) (toggly_State s) (previous_zero_cross s) (t s) (TCNT1 s) (OCR1A s) (pins s) (writes s).
Definition set_delay_time v s := mkState (lux s) (clock_tick s) v (low s) (high s) (off s) (commands s) (next_command s) (toggly_State s) (previous_zero_cross s) (t s) (TCNT1 s) (OCR1A s) (pins s) (writes s).
Definition set_low v s := mkState (lux s) (clock_tick s) (delay_time s) v (high s) (off s) (commands s) (next_command s) (toggly_State s) (previous_zero_cross s) (t s) (TCNT1 s) (OCR1A s) (pins s) (writes s).
Definition set_off v s := mkState (lux s) (clock_tick s) (delay_time s) (low s) (high s) v (commands s) (next_command s) (toggly_State s) (previous_zero_cross s) (t s) (TCNT1 s) (OCR1A s) (pins s) (writes s).
Definition set_commands v s := mkState (lux s) (clock_tick s) (delay_time s) (low s) (high s) (off s) v (next_command s) (toggly_State s) (previous_zero_cross s) (t s) (TCNT1 s) (OCR1A s) (pins s) (writes s).
Definition set_next_command v s := mkState (lux s) (clock_tick s) (delay_time s) (low s) (high s) (off s) (commands s) v (toggly_State s) (previous_zero_cross s) (t s) (TCNT1 s) (OCR1A s) (pins s) (writes s).
Definition set_toggly_State v s := mkState (lux s) (clock_tick s) (delay_time s) (low s) (high s) (off s) (commands s) (next_command s) v (previous_zero_cross s) (t s) (TCNT1 s) (OCR1A s) (pins s) (writes s).
Definition set_previous_zero_cross v s := mkState (lux s) (clock_tick s) (delay_time s) (low s) (high s) (off s) (commands s) (next_command s) (toggly_State s) v (t s) (TCNT1 s) (OCR1A s) (pins s) (writes s).
Definition set_t v s := mkState (lux s) (clock_tick s) (delay_time s) (low s) (high s) (off s) (commands s) (next_command s) (toggly_State s) (previous_zero_cross s) v (TCNT1 s) (OCR1A s) (pins s) (writes s).
Definition set_TCNT1 v s := mkState (lux s) (clock_tick s) (delay_time s) (low s) (high s) (off s) (commands s) (next_command s) (toggly_State s) (previous_zero_cross s) (t s) v (OCR1A s) (pins s) (writes s).
Definition set_OCR1A v s := mkState (lux s) (clock_tick s) (delay_time s) (low s) (high s) (off s) (commands s) (next_command s) (toggly_State s) (previous_zero_cross s) (t s) (TCNT1 s) v (pins s) (writes s).

(** [digitalWrite(pin, level)]: the pin takes the level, and the write is
    appended to the trace so that a pulse raised and lowered inside one
    handler stays visible. *)
Definition digitalWrite (pin : Z) (level : bool) (s : state) : state :=
  mkState (lux s) (clock_tick s) (delay_time s) (low s) (high s) (off s)
          (commands s) (next_command s) (toggly_State s)
          (previous_zero_cross s) (t s) (TCNT1 s) (OCR1A s)
          (<[pin := level]> (pins s)) (writes s ++ [(pin, level)]).

(** The globals as the sketch initialises them ([setup] stores [off] in every
    [lux] slot and configures every output pin, which leaves it LOW). *)
Definition initial_state : state :=
  {| lux := replicate 8 95;
     clock_tick := 0;
     delay_time := 100;
     low := 85;
     high := 45;
     off := 95;
     commands := replicate 8 0;
     next_command := 0;
     toggly_State := false;
     previous_zero_cross := 0;
     t := 0;
     TCNT1 := 0;
     OCR1A := 166;
     pins := list_to_map ((fun p => (p, LOW)) <$> (led :: pin_assignments));
     writes := [] |}.

(** ** Control flow *)

(** [for (int i = lo; i < lo + n; i++) body]  *)
Fixpoint for_loop {A : Type} (i n : nat) (body : nat -> A -> A) (a : A) : A :=
  match n with
  | O => a
  | S n' => for_loop (S i) n' body (body i a)
  end.

(** A handler either returns, or reads [commands] outside its eight slots.
    [OutOfFuel] only serves to write the [while] loop by structural
    recursion; [fire_loop_fuel] shows that it never comes out. *)
Inductive outcome (A : Type) : Type :=
  | Done (a : A)
  | OutOfBounds (index : Z)
  | OutOfFuel.
Arguments Done {A} a.
Arguments OutOfBounds {A} index.
Arguments OutOfFuel {A}.

#[global] Instance outcome_ret : MRet outcome := fun A a => Done a.

#[global] Instance outcome_bind : MBind outcome := fun A B k m =>
  match m with
  | Done a => k a
  | OutOfBounds i => OutOfBounds i
  | OutOfFuel => OutOfFuel
  end.

(** The same [for] loop with a body that may fault. *)
Fixpoint for_loopM {A : Type} (i n : nat) (body : nat -> A -> outcome A) (a : A)
  : outcome A :=
  match n with
  | O => Done a
  | S n' => a' ← body i a; for_loopM (S i) n' body a'
  end.

(** ** Schedule builder (the body of [loop]) *)

Section Builder.
Context {R : Rounding}.

(** Conversion of an [int] operand to [float]. *)
Definition of_int (z : Z) : Q := rnd (inject_Z z).

(** [high + (low - high)*(1-x)], one rounding per float operation;
    [low - high] is an [int] subtraction of the promoted operands. *)
Definition delay_value (high low : Z) (x : Q) : Q :=
  rnd (of_int high + rnd (of_int (low - high) * rnd (of_int 1 - x))).

(** [(high + (low - high)*(1-x)) * 166] *)
Definition fire_value (high low : Z) (x : Q) : Q :=
  rnd (delay_value high low x * of_int 166).

(** [lux[i] = (high + (low - high)*(1-x)) * 166;] *)
Definition lux_of (high low : Z) (x : Q) : Z :=
  float_to_int (fire_value high low x).
End Builder.

(** [(lux[i] & ~(0b111)) | i] *)
Definition pack (l : Z) (i : nat) : Z :=
  Z.lor (Z.land l (Z.lnot 7)) (Z.of_nat i).

(** The two fields of a queue entry, as the dispatcher and the diagnostic
    print take them apart. *)
Definition channel (c : Z) : Z := Z.land c 7.

(** First loop of [loop]: fills [lux] and [newcommands].  The brightness
    [x] of channel [i] comes from the waveform generator, taken here as the
    function [bright]. *)
Definition fill_body {R : Rounding} (high low : Z) (bright : nat -> Q)
    (i : nat) (st : list Z * list Z) : list Z * list Z :=
  let x := bright i in
  let l := lux_of high low x in
  (<[i := l]> (fst st), <[i := pack l i]> (snd st)).

(** Inner loop of the sort: [if (newcommands[j] < min) { min = ...; min_index = j; }] *)
Definition scan_body (nc : list Z) (j : nat) (m : Z * nat) : Z * nat :=
  if nc !!! j <? fst m then (nc !!! j, j) else m.

(** One round of the selection sort. *)
Definition sort_body (i : nat) (nc : list Z) : list Z :=
  let m := for_loop (S i) (8 - S i) (scan_body nc) (nc !!! i, i) in
  let min_index := snd m in
  let temp := nc !!! i in
  let nc1 := <[i := nc !!! min_index]> nc in
  <[min_index := temp]> nc1.

Definition sort_newcommands (nc : list Z) : list Z := for_loop 0 8 sort_body nc.

(** [commands[i] = newcommands[i];]  ([int16_t] stored into [uint16_t]) *)
Definition copy_body (nc : list Z) (i : nat) (cmds : list Z) : list Z :=
  <[i := wrap_u16 (nc !!! i)]> cmds.

(** The [int16_t newcommands[8]] array before it is sorted. *)
Definition newcommands {R : Rounding} (high low : Z) (bright : nat -> Q)
    (lux0 : list Z) : list Z * list Z :=
  for_loop 0 8 (fill_body high low bright) (lux0, replicate 8 0).

(** Lines 226-250 of [loop]: compute, sort, publish. *)
Definition publish {R : Rounding} (bright : nat -> Q) (s : state) : state :=
  let filled := newcommands (high s) (low s) bright (lux s) in
  let sorted := sort_newcommands (snd filled) in
  let cmds := for_loop 0 8 (copy_body sorted) (commands s) in
  set_commands cmds (set_lux (fst filled) s).

(** ** Serial command interface *)

(** One character read by [serialEvent]; the text echoed on the serial line
    is not part of the state. *)
Definition serial_char (inChar : ascii) (s : state) : state :=
  if Ascii.eqb inChar "u" then set_delay_time (wrap_u16 (delay_time s - 10)) s
  else if Ascii.eqb inChar "d" then set_delay_time (wrap_u16 (delay_time s + 10)) s
  else if Ascii.eqb inChar "l" then set_low (wrap_u8 (low s - 10)) s
  else if Ascii.eqb inChar "h" then set_low (wrap_u8 (low s + 10)) s
  else if Ascii.eqb inChar "o" then set_off (wrap_u8 (off s - 10)) s
  else if Ascii.eqb inChar "f" then set_off (wrap_u8 (off s + 10)) s
  else s.

(** [while (Serial.available()) { ... }] over the characters waiting. *)
Definition serialEvent (input : list ascii) (s : state) : state :=
  fold_left (fun s c => serial_char c s) input s.

(** One pass of [loop]: [input1] and [input2] are the characters waiting at
    its two calls of [serialEvent]. *)
Definition loop {R : Rounding} (input1 input2 : list ascii) (bright : nat -> Q)
    (s : state) : state :=
  let s := serialEvent input1 s in
  let s := set_t (if wrap_i16 (t s + 1) >=? 1024 then 0 else wrap_i16 (t s + 1)) s in
  let s := publish bright s in
  serialEvent input2 s.

(** ** Event dispatcher: [ISR(TIMER1_COMPA_vect)]

    The counter keeps running while a handler executes; the model gives a
    handler call the one value of [TCNT1] held in the state. *)

(** [commands[i]] with [i] an [int]: a read outside the eight slots is
    reported instead of being given a value. *)
Definition read_commands (i : Z) (s : state) : outcome Z :=
  if i <? 0 then OutOfBounds i
  else match commands s !! Z.to_nat i with
       | Some c => Done c
       | None => OutOfBounds i
       end.

(** [pin_assignments[commands[k] & 0b111]] *)
Definition pin_of (c : Z) : Z := pin_assignments !!! Z.to_nat (Z.land c 7).

(** [while (commands[next_command] <= TCNT1+64) { ...; next_command++;
    if (next_command >= 8) break; }]  The comparison is between
    [unsigned int] operands, so [TCNT1+64] wraps at 65536. *)
Fixpoint fire_loop (fuel : nat) (s : state) : outcome state :=
  match fuel with
  | O => OutOfFuel
  | S fuel' =>
      c ← read_commands (next_command s) s;
      if c <=? wrap_u16 (TCNT1 s + 64) then
        let s := digitalWrite (pin_of c) HIGH s in
        let s := set_next_command (wrap_i16 (next_command s + 1)) s in
        if next_command s >=? 8 then Done s else fire_loop fuel' s
      else Done s
  end.

(** [digitalWrite(pin_assignments[commands[i] & 0b111], LOW);] *)
Definition lower_body (first_command : Z) (k : nat) (s : state) : outcome state :=
  c ← read_commands (first_command + Z.of_nat k) s;
  Done (digitalWrite (pin_of c) LOW s).

Definition ISR_TIMER1_COMPA (s : state) : outcome state :=
  let s := digitalWrite led (if Z.rem (next_command s) 2 =? 0 then HIGH else LOW) s in
  let first_command := next_command s in
  s ← fire_loop 8 s;
  (* delayMicroseconds(5) *)
  s ← for_loopM 0 (Z.to_nat (next_command s - first_command))
        (lower_body first_command) s;
  c ← read_commands (next_command s) s;
  Done (set_OCR1A c s).

(** ** Zero-cross synchronizer *)

Definition zero_cross_int (s : state) : state :=
  let s := set_previous_zero_cross (TCNT1 s) s in
  if TCNT1 s <? 1000 then s
  else
    let s := set_clock_tick 0 s in
    let s := set_next_command 0 s in
    let s := set_toggly_State false s in
    let s := digitalWrite led LOW s in
    let s := set_OCR1A (commands s !!! 0%nat) s in
    set_TCNT1 0 s.

(** ** The fixed-period handler kept in the same file *)

(** [for (i = 0; i < 8; i++) digitalWrite(pin_assignments[i], LOW);] *)
Definition all_off (s : state) : state :=
  for_loop 0 8 (fun i s => digitalWrite (pin_assignments !!! i) LOW s) s.

Definition raise_due (i : nat) (s : state) : state :=
  if lux s !!! i <=? clock_tick s
  then digitalWrite (pin_assignments !!! i) HIGH s else s.

Definition lower_due (i : nat) (s : state) : state :=
  if lux s !!! i <=? clock_tick s
  then digitalWrite (pin_assignments !!! i) LOW s else s.

Definition timerIsr (s : state) : state :=
  let s := set_clock_tick (wrap_u8 (clock_tick s + 1)) s in
  if clock_tick s >? off s then
    let s := all_off s in
    set_clock_tick (off s) s
  else
    let s := for_loop 0 8 raise_due s in
    (* delayMicroseconds(5) *)
    for_loop 0 8 lower_due s.

(** ** The older program: everything runs off an 8-bit tick *)

Module Legacy.

(** [low = 85*2], [high = 45*2], [off = 95*2] *)
Definition low0 : Z := 170.
Definition high0 : Z := 90.
Definition off0 : Z := 190.

(** [lux[i] = high + (low - high)*(1-x);] *)
Definition lux_of {R : Rounding} (high low : Z) (x : Q) : Z :=
  float_to_int (delay_value high low x).

(** The globals of the older sketch after its [setup]. *)
Definition initial_state : state :=
  {| lux := replicate 8 off0;
     clock_tick := 0;
     delay_time := 100;
     low := low0;
     high := high0;
     off := off0;
     commands := [];
     next_command := 0;
     toggly_State := false;
     previous_zero_cross := 0;
     t := 0;
     TCNT1 := 0;
     OCR1A := 0;
     pins := list_to_map ((fun p => (p, LOW)) <$> (led :: pin_assignments));
     writes := [] |}.

Definition pulse_due (i : nat) (s : state) : state :=
  if lux s !!! i =? clock_tick s
  then
    let s := digitalWrite (pin_assignments !!! i) HIGH s in
    (* delayMicroseconds(5) *)
    digitalWrite (pin_assignments !!! i) LOW s
  else s.

Definition timerIsr (s : state) : state :=
  let s := set_clock_tick (wrap_u8 (clock_tick s + 1)) s in
  if clock_tick s >? off s then
    let s := all_off s in
    set_clock_tick (off s) s
  else for_loop 0 8 pulse_due s.

Definition zero_cross_int (s : state) : state := set_clock_tick 0 s.

(** [for (i = 0; i < 8; i++) { ...; lux[i] = high + (low - high)*(1-x); }] *)
Definition fill_body {R : Rounding} (high low : Z) (bright : nat -> Q)
    (i : nat) (lux : list Z) : list Z :=
  <[i := lux_of high low (bright i)]> lux.

Definition publish {R : Rounding} (bright : nat -> Q) (s : state) : state :=
  set_lux (for_loop 0 8 (fill_body (high s) (low s) bright) (lux s)) s.

(** One pass of the older [loop]. *)
Definition loop {R : Rounding} (input1 input2 : list ascii) (bright : nat -> Q)
    (s : state) : state :=
  let s := serialEvent input1 s in
  let s := set_t (if wrap_i16 (t s + 1) >=? 1024 then 0 else wrap_i16 (t s + 1)) s in
  let s := publish bright s in
  serialEvent input2 s.

End Legacy.

(** ** Exact arithmetic as a rounding *)

#[global, refine] Instance exact : Rounding := {| rnd := fun q => q |}.
Proof.
  - intros a b Hab. exact Hab.
  - intros z _. reflexivity.
Defined.

(** ** What the specification says the builder computes *)




(** ** Sample inputs *)

(** Brightness rising with the channel: 0, 1/8, ..., 7/8. *)
Definition ramp (i : nat) : Q := inject_Z (Z.of_nat i) / 8.

(** Channel 0 at full brightness, the others dark. *)
Definition solo (i : nat) : Q := match i with O => 1 | S _ => 0 end.

(** Every channel dark, every channel at a brightness of 2. *)
Definition dark (i : nat) : Q := 0.

(** ** Output traces *)

(** A run of [digitalWrite] calls, in order. *)
Definition emit (ws : list (Z * bool)) (s : state) : state :=
  fold_left (fun s w => digitalWrite (fst w) (snd w) s) ws s.

(** The pin levels a run of writes leaves. *)
Definition replay (ws : list (Z * bool)) (m : gmap Z bool) : gmap Z bool :=
  fold_left (fun m w => <[fst w := snd w]> m) ws m.

(** Every triac output is low. *)
Definition all_low (s : state) : Prop :=
  forall p, p ∈ pin_assignments -> pins s !! p = Some LOW.

(** The writes that raise, or lower, the outputs of a batch of queue
    entries. *)
Definition raise (batch : list Z) : list (Z * bool) :=
  (fun c => (pin_of c, HIGH)) <$> batch.
Definition lower (batch : list Z) : list (Z * bool) :=
  (fun c => (pin_of c, LOW)) <$> batch.

(** The queue entries from slot [first] on, [n] of them. *)
Definition slice (first : Z) (n : nat) (cmds : list Z) : list Z :=
  take n (drop (Z.to_nat first) cmds).

(** An entry the dispatcher's loop fires at counter value [tcnt]. *)
Definition due (tcnt : Z) (c : Z) : Prop := c <= wrap_u16 (tcnt + 64).

(** How many times a trace raises a pin. *)
Definition fires (p : Z) (ws : list (Z * bool)) : nat :=
  length (filter (fun w => w = (p, HIGH)) ws).

(** ** Invariants of the loops *)

(** An [unsigned char] value. *)
Definition byte (z : Z) : Prop := 0 <= z <= 255.

(** Inner loop of the sort: [min] is the least entry of the slots [i..j),
    and [min_index] is a slot that holds it. *)
Definition is_min (nc : list Z) (i j : nat) (m : Z * nat) : Prop :=
  (i <= snd m < j)%nat /\ nc !! snd m = Some (fst m) /\
  forall k v, (i <= k < j)%nat -> nc !! k = Some v -> fst m <= v.

(** Outer loop: the first [i] slots are final, each is below everything to
    its right. *)
Definition sorted_upto (i : nat) (nc : list Z) : Prop :=
  forall a b va vb, (a < i)%nat -> (a < b)%nat ->
    nc !! a = Some va -> nc !! b = Some vb -> va <= vb.

Definition sort_inv (nc0 : list Z) (i : nat) (nc : list Z) : Prop :=
  length nc = 8%nat /\ nc ≡ₚ nc0 /\ sorted_upto i nc.

(** * Properties *)

(** ** Packed queue entries *)


Lemma land7 (c : Z) : Z.land c 7 = c mod 8.
Proof. change 7 with (Z.ones 3). rewrite Z.land_ones by lia. reflexivity. Qed.


Lemma channel_mod (c : Z) : channel c = c mod 8.
Proof. apply land7. Qed.



Lemma channel_range (c : Z) : 0 <= channel c < 8.
Proof. rewrite channel_mod. apply Z.mod_pos_bound. lia. Qed.


Lemma wrap_u16_small (z : Z) : 0 <= z < 65536 -> wrap_u16 z = z.
Proof. intros H. apply Z.mod_small. exact H. Qed.

Lemma wrap_i16_small (z : Z) : in_i16 z -> wrap_i16 z = z.
Proof. unfold in_i16, wrap_i16. intros H. rewrite Z.mod_small; lia. Qed.

Lemma wrap_i16_range (z : Z) : in_i16 (wrap_i16 z).
Proof.
  unfold in_i16, wrap_i16.
  pose proof (Z.mod_pos_bound (z + 32768) 65536). lia.
Qed.


(** ** Loops *)

Lemma for_loop_inv {A : Type} (P : nat -> A -> Prop) (body : nat -> A -> A) :
  forall (n i : nat) (a : A),
    P i a ->
    (forall k b, (i <= k < i + n)%nat -> P k b -> P (S k) (body k b)) ->
    P (i + n)%nat (for_loop i n body a).
Proof.
  induction n as [|n IH]; intros i a Ha Hstep; simpl.
  - replace (i + 0)%nat with i by lia. exact Ha.
  - replace (i + S n)%nat with (S i + n)%nat by lia.
    apply IH.
    + apply Hstep; [lia | exact Ha].
    + intros k b Hk. apply Hstep. lia.
Qed.

(** ** The selection sort *)

Section Sort.
Implicit Types nc : list Z.

Lemma scan_min nc (i : nat) :
  length nc = 8%nat -> (i < 8)%nat ->
  is_min nc i 8 (for_loop (S i) (8 - S i) (scan_body nc) (nc !!! i, i)).
Proof.
  intros Hlen Hi.
  assert (Hi' : nc !! i = Some (nc !!! i))
    by (apply list_lookup_lookup_total_lt; lia).
  pose proof (for_loop_inv (is_min nc i) (scan_body nc) (8 - S i) (S i)
                (nc !!! i, i)) as Hloop.
  replace (S i + (8 - S i))%nat with 8%nat in Hloop by lia.
  apply Hloop; clear Hloop.
  - repeat split; simpl; [lia | lia | exact Hi' |].
    intros k v Hk Hv. replace k with i in Hv by lia.
    rewrite Hi' in Hv. injection Hv as <-. lia.
  - intros k [m mi] Hk (Hr & Hm & Hle). simpl in *.
    assert (Hk' : nc !! k = Some (nc !!! k))
      by (apply list_lookup_lookup_total_lt; lia).
    unfold scan_body. simpl.
    destruct (Z.ltb_spec (nc !!! k) m) as [Hlt | Hge].
    + repeat split; simpl; [lia | lia | exact Hk' |].
      intros k' v Hk2 Hv.
      destruct (decide (k' = k)) as [-> | Hne].
      * rewrite Hk' in Hv. injection Hv as <-. lia.
      * specialize (Hle k' v ltac:(lia) Hv). lia.
    + repeat split; simpl; [lia | lia | exact Hm |].
      intros k' v Hk2 Hv.
      destruct (decide (k' = k)) as [-> | Hne].
      * rewrite Hk' in Hv. injection Hv as <-. lia.
      * apply (Hle k'); [lia | exact Hv].
Qed.

Lemma lookup_swap nc (i mi : nat) (x m : Z) (b : nat) :
  nc !! i = Some x -> nc !! mi = Some m ->
  <[mi := x]> (<[i := m]> nc) !! b =
    if decide (b = mi) then Some x
    else if decide (b = i) then Some m else nc !! b.
Proof.
  intros Hi Hm.
  apply lookup_lt_Some in Hi, Hm.
  destruct (decide (b = mi)) as [-> | Hbm].
  - apply list_lookup_insert_eq. rewrite length_insert. exact Hm.
  - rewrite list_lookup_insert_ne by congruence.
    destruct (decide (b = i)) as [-> | Hbi].
    + apply list_lookup_insert_eq. exact Hi.
    + apply list_lookup_insert_ne. congruence.
Qed.

Lemma sort_body_inv nc0 (i : nat) nc :
  (i < 8)%nat -> sort_inv nc0 i nc -> sort_inv nc0 (S i) (sort_body i nc).
Proof.
  intros Hi (Hlen & Hperm & Hsorted).
  unfold sort_body.
  pose proof (scan_min nc i Hlen Hi) as Hmin.
  destruct (for_loop (S i) (8 - S i) (scan_body nc) (nc !!! i, i))
    as [m mi] eqn:Escan.
  destruct Hmin as (Hr & Hm & Hle). simpl in *.
  assert (Hi' : nc !! i = Some (nc !!! i))
    by (apply list_lookup_lookup_total_lt; lia).
  rewrite (list_lookup_total_correct _ _ _ Hm).
  generalize dependent (nc !!! i). intros x Escan Hi'.
  split; [| split].
  - rewrite !length_insert. exact Hlen.
  - rewrite <- Hperm. apply Permutation_insert_swap; assumption.
  - intros a b va vb Ha Hab Hva Hvb.
    rewrite (lookup_swap nc i mi x m a Hi' Hm) in Hva.
    rewrite (lookup_swap nc i mi x m b Hi' Hm) in Hvb.
    destruct (decide (a = i)) as [-> | Hai].
    + (* slot [i] now holds the minimum *)
      assert (va = m) as ->.
      { destruct (decide (i = mi)) as [<- | Hne].
        - rewrite Hm in Hi'. congruence.
        - destruct (decide (i = i)); congruence. }
      destruct (decide (b = mi)) as [-> | Hbm].
      * injection Hvb as <-. apply (Hle i); [lia | exact Hi'].
      * destruct (decide (b = i)); [lia |].
        apply (Hle b); [| exact Hvb].
        apply lookup_lt_Some in Hvb. lia.
    + destruct (decide (a = mi)); [lia |].
      destruct (decide (a = i)); [lia |].
      destruct (decide (b = mi)) as [-> | Hbm].
      * injection Hvb as <-. apply (Hsorted a i); [lia | lia | exact Hva | exact Hi'].
      * destruct (decide (b = i)) as [-> | Hbi].
        -- injection Hvb as <-. apply (Hsorted a mi); [lia | lia | exact Hva | exact Hm].
        -- apply (Hsorted a b); [lia | lia | exact Hva | exact Hvb].
Qed.

Lemma sort_newcommands_inv nc :
  length nc = 8%nat -> sort_inv nc 8 (sort_newcommands nc).
Proof.
  intros Hlen. unfold sort_newcommands.
  apply (for_loop_inv (sort_inv nc) sort_body 8 0).
  - split; [exact Hlen | split; [reflexivity |]].
    intros a b va vb Ha. lia.
  - intros k b Hk Hinv. apply sort_body_inv; [lia | exact Hinv].
Qed.

Lemma sort_newcommands_length nc :
  length nc = 8%nat -> length (sort_newcommands nc) = 8%nat.
Proof. intros H. apply (sort_newcommands_inv nc H). Qed.

Lemma sort_newcommands_perm nc :
  length nc = 8%nat -> sort_newcommands nc ≡ₚ nc.
Proof. intros H. apply (sort_newcommands_inv nc H). Qed.

Lemma sort_newcommands_sorted nc (a b : nat) (va vb : Z) :
  length nc = 8%nat -> (a < b)%nat ->
  sort_newcommands nc !! a = Some va ->
  sort_newcommands nc !! b = Some vb -> va <= vb.
Proof.
  intros H Hab Ha Hb.
  destruct (sort_newcommands_inv nc H) as (Hlen & _ & Hs).
  apply (Hs a b); try assumption.
  apply lookup_lt_Some in Hb. lia.
Qed.
End Sort.

(** ** Rounded arithmetic *)

Lemma Qtrunc_Z (z : Z) : Qtrunc (inject_Z z) = z.
Proof.
  unfold Qtrunc. destruct (Qle_bool 0 (inject_Z z)).
  - apply Qfloor_Z.
  - apply Qceiling_Z.
Qed.

Lemma Qtrunc_mono (a b : Q) : (a <= b)%Q -> Qtrunc a <= Qtrunc b.
Proof.
  intros Hab. unfold Qtrunc.
  destruct (Qle_bool 0 a) eqn:Ea, (Qle_bool 0 b) eqn:Eb.
  - apply Qfloor_resp_le. exact Hab.
  - apply Qle_bool_iff in Ea.
    assert (Hb : ~ (0 <= b)%Q) by (rewrite <- Qle_bool_iff; congruence).
    exfalso. apply Hb. apply Qle_trans with a; assumption.
  - (* a < 0 <= b *)
    apply Qle_bool_iff in Eb.
    assert (Ha : ~ (0 <= a)%Q) by (rewrite <- Qle_bool_iff; congruence).
    apply Z.le_trans with 0.
    + rewrite <- (Qceiling_Z 0). apply Qceiling_resp_le.
      apply Qlt_le_weak, Qnot_le_lt. exact Ha.
    + rewrite <- (Qfloor_Z 0). apply Qfloor_resp_le. exact Eb.
  - apply Qceiling_resp_le. exact Hab.
Qed.

Section Rounded.
Context {R : Rounding}.

#[global] Instance rnd_proper : Proper (Qeq ==> Qeq) rnd.
Proof.
  intros a b Hab. apply Qle_antisym; apply rnd_mono; rewrite Hab; apply Qle_refl.
Qed.

Lemma of_int_exact (z : Z) : Z.abs z <= 16777216 -> (of_int z == inject_Z z)%Q.
Proof. apply rnd_int. Qed.

(** A rounded value stays between any two small integers that bracket
    the exact one. *)
Lemma rnd_between (a b : Z) (q : Q) :
  Z.abs a <= 16777216 -> Z.abs b <= 16777216 ->
  (inject_Z a <= q <= inject_Z b)%Q ->
  (inject_Z a <= rnd q <= inject_Z b)%Q.
Proof.
  intros Ha Hb [H1 H2]. split.
  - rewrite <- (rnd_int a Ha). apply rnd_mono. exact H1.
  - rewrite <- (rnd_int b Hb). apply rnd_mono. exact H2.
Qed.

(** The float delay lies between the two configured bounds. *)
Lemma delay_value_between (high low : Z) (x : Q) :
  byte high -> byte low -> (0 <= x <= 1)%Q ->
  (inject_Z (Z.min high low) <= delay_value high low x
     <= inject_Z (Z.max high low))%Q.
Proof.
  unfold byte. intros Hh Hl Hx. unfold delay_value.
  assert (H1 : (inject_Z 0 <= rnd (of_int 1 - x) <= inject_Z 1)%Q).
  { apply rnd_between; [lia | lia |].
    rewrite (of_int_exact 1) by lia.
    change (inject_Z 0) with 0%Q. change (inject_Z 1) with 1%Q. lra. }
  set (r1 := rnd (of_int 1 - x)) in *.
  change (inject_Z 0) with 0%Q in H1. change (inject_Z 1) with 1%Q in H1.
  assert (H2 : (inject_Z (Z.min 0 (low - high)) <= rnd (of_int (low - high) * r1)
                <= inject_Z (Z.max 0 (low - high)))%Q).
  { apply rnd_between; [lia | lia |].
    rewrite (of_int_exact (low - high)) by lia.
    destruct (Z.le_ge_cases 0 (low - high)) as [Hd | Hd].
    - rewrite Z.min_l, Z.max_r by lia.
      assert (Hd' : (0 <= inject_Z (low - high))%Q)
        by (change 0%Q with (inject_Z 0); rewrite <- Zle_Qle; lia).
      change (inject_Z 0) with 0%Q. nra.
    - rewrite Z.min_r, Z.max_l by lia.
      assert (Hd' : (inject_Z (low - high) <= 0)%Q)
        by (change 0%Q with (inject_Z 0); rewrite <- Zle_Qle; lia).
      change (inject_Z 0) with 0%Q. nra. }
  set (r2 := rnd (of_int (low - high) * r1)) in *.
  apply rnd_between; [lia | lia |].
  rewrite (of_int_exact high) by lia.
  replace (Z.min high low) with (high + Z.min 0 (low - high)) by lia.
  replace (Z.max high low) with (high + Z.max 0 (low - high)) by lia.
  rewrite !inject_Z_plus. lra.
Qed.

Lemma fire_value_between (high low : Z) (x : Q) :
  byte high -> byte low -> (0 <= x <= 1)%Q ->
  (inject_Z (Z.min high low * 166) <= fire_value high low x
     <= inject_Z (Z.max high low * 166))%Q.
Proof.
  intros Hh Hl Hx. unfold fire_value.
  pose proof (delay_value_between high low x Hh Hl Hx) as H3.
  unfold byte in *.
  apply rnd_between; [lia | lia |].
  rewrite (of_int_exact 166) by lia.
  rewrite !inject_Z_mult. change (inject_Z 166) with 166%Q. lra.
Qed.


End Rounded.

(** ** The schedule builder *)

Section BuilderFacts.
Context {R : Rounding}.
Variables (high low : Z) (bright : nat -> Q).

Lemma newcommands_snd (lux0 : list Z) :
  snd (newcommands high low bright lux0)
  = (fun i => pack (lux_of high low (bright i)) i) <$> seq 0 8.
Proof. reflexivity. Qed.

Lemma newcommands_fst (lux0 : list Z) :
  length lux0 = 8%nat ->
  fst (newcommands high low bright lux0)
  = (fun i => lux_of high low (bright i)) <$> seq 0 8.
Proof.
  intros Hlen.
  do 8 (destruct lux0 as [|? lux0]; [discriminate Hlen |]).
  destruct lux0; [| discriminate Hlen].
  reflexivity.
Qed.
End BuilderFacts.

Lemma copy_loop (nc cmds : list Z) :
  length nc = 8%nat -> length cmds = 8%nat ->
  for_loop 0 8 (copy_body nc) cmds = wrap_u16 <$> nc.
Proof.
  intros Hn Hc.
  do 8 (destruct nc as [|? nc]; [discriminate Hn |]).
  destruct nc; [| discriminate Hn].
  do 8 (destruct cmds as [|? cmds]; [discriminate Hc |]).
  destruct cmds; [| discriminate Hc].
  reflexivity.
Qed.

(** Arrays keep their declared size of eight. *)
Lemma publish_commands {R : Rounding} (bright : nat -> Q) (s : state) :
  length (commands s) = 8%nat ->
  commands (publish bright s) =
    wrap_u16 <$> sort_newcommands
      ((fun i => pack (lux_of (high s) (low s) (bright i)) i) <$> seq 0 8).
Proof.
  intros Hc. unfold publish, set_commands. cbn [commands].
  rewrite newcommands_snd.
  apply copy_loop; [| exact Hc].
  apply sort_newcommands_length. reflexivity.
Qed.

Lemma publish_lux {R : Rounding} (bright : nat -> Q) (s : state) :
  length (lux s) = 8%nat ->
  lux (publish bright s) =
    (fun i => lux_of (high s) (low s) (bright i)) <$> seq 0 8.
Proof.
  intros Hl. unfold publish, set_commands, set_lux. cbn [lux].
  apply newcommands_fst. exact Hl.
Qed.






Lemma Qtrunc_comp (a b : Q) : (a == b)%Q -> Qtrunc a = Qtrunc b.
Proof.
  intros Hab. apply Z.le_antisymm; apply Qtrunc_mono; rewrite Hab; apply Qle_refl.
Qed.

(** ** Computed ticks *)

Section Ticks.
Context {R : Rounding}.

(** As long as both bounds times 166 fit an [int], the conversion is exact
    truncation and the tick lies between the scaled bounds. *)
Lemma lux_of_between (high low : Z) (x : Q) :
  0 <= high <= 197 -> 0 <= low <= 197 -> (0 <= x <= 1)%Q ->
  lux_of high low x = Qtrunc (fire_value high low x)
  /\ Z.min high low * 166 <= lux_of high low x <= Z.max high low * 166.
Proof.
  intros Hh Hl Hx.
  destruct (fire_value_between high low x) as [H1 H2];
    [unfold byte; lia | unfold byte; lia | exact Hx |].
  apply Qtrunc_mono in H1, H2. rewrite Qtrunc_Z in H1, H2.
  unfold lux_of, float_to_int.
  rewrite wrap_i16_small by (unfold in_i16; lia).
  split; [reflexivity | lia].
Qed.


Lemma legacy_lux_of_between (high low : Z) (x : Q) :
  byte high -> byte low -> (0 <= x <= 1)%Q ->
  Legacy.lux_of high low x = Qtrunc (delay_value high low x)
  /\ Z.min high low <= Legacy.lux_of high low x <= Z.max high low.
Proof.
  intros Hh Hl Hx.
  destruct (delay_value_between high low x Hh Hl Hx) as [H1 H2].
  apply Qtrunc_mono in H1, H2. rewrite Qtrunc_Z in H1, H2.
  unfold Legacy.lux_of, float_to_int. unfold byte in *.
  rewrite wrap_i16_small by (unfold in_i16; lia).
  split; [reflexivity | lia].
Qed.

End Ticks.





(** ** The published queue *)

Lemma sorted_StronglySorted (l : list Z) :
  (forall a b va vb, (a < b)%nat -> l !! a = Some va -> l !! b = Some vb -> va <= vb) ->
  StronglySorted Z.le l.
Proof.
  induction l as [|v l IH]; intros H; constructor.
  - apply IH. intros a b va vb Hab Ha Hb.
    apply (H (S a) (S b)); [lia | exact Ha | exact Hb].
  - apply Forall_forall. intros w Hw.
    apply list_elem_of_lookup in Hw as [k Hk].
    apply (H 0%nat (S k)); [lia | reflexivity | exact Hk].
Qed.








(** ** A dark channel *)

Section Dark.
Context {R : Rounding}.

Lemma delay_value_dark (high low : Z) :
  byte high -> byte low -> (delay_value high low 0 == inject_Z low)%Q.
Proof.
  unfold byte. intros Hh Hl. unfold delay_value.
  assert (E1 : (of_int 1 - 0 == inject_Z 1)%Q).
  { rewrite (of_int_exact 1) by lia. change (inject_Z 1) with 1%Q. ring. }
  rewrite E1, (rnd_int 1) by lia.
  assert (E2 : (of_int (low - high) * inject_Z 1 == inject_Z (low - high))%Q).
  { rewrite (of_int_exact (low - high)) by lia.
    change (inject_Z 1) with 1%Q. ring. }
  rewrite E2, (rnd_int (low - high)) by lia.
  rewrite (of_int_exact high), <- inject_Z_plus by lia.
  replace (high + (low - high)) with low by lia.
  apply rnd_int. lia.
Qed.

Lemma lux_of_dark (high low : Z) :
  byte high -> 0 <= low <= 197 -> lux_of high low 0 = low * 166.
Proof.
  intros Hh Hl. unfold lux_of, float_to_int, fire_value.
  assert (E : (rnd (delay_value high low 0 * of_int 166) == inject_Z (low * 166))%Q).
  { rewrite delay_value_dark by (unfold byte; lia || assumption).
    rewrite (of_int_exact 166), <- inject_Z_mult by lia.
    apply rnd_int. lia. }
  rewrite (Qtrunc_comp _ _ E), Qtrunc_Z.
  apply wrap_i16_small. unfold in_i16. lia.
Qed.

Lemma legacy_lux_of_dark (high low : Z) :
  byte high -> byte low -> Legacy.lux_of high low 0 = low.
Proof.
  intros Hh Hl. unfold Legacy.lux_of, float_to_int.
  rewrite (Qtrunc_comp _ _ (delay_value_dark high low Hh Hl)), Qtrunc_Z.
  apply wrap_i16_small. unfold in_i16, byte in *. lia.
Qed.
End Dark.




(** ** The dispatcher *)

Lemma bind_Done {A B : Type} (m : outcome A) (k : A -> outcome B) (b : B) :
  m ≫= k = Done b -> exists a, m = Done a /\ k a = Done b.
Proof.
  destruct m as [a | i |]; cbn; intros H; [| discriminate H | discriminate H].
  exists a. split; [reflexivity | exact H].
Qed.

Lemma read_commands_Done (i : Z) (s : state) (c : Z) :
  read_commands i s = Done c <-> 0 <= i /\ commands s !! Z.to_nat i = Some c.
Proof.
  unfold read_commands.
  destruct (Z.ltb_spec i 0) as [Hneg | Hpos].
  - split; [discriminate | lia].
  - destruct (commands s !! Z.to_nat i) as [c'|].
    + split; [intros [= ->]; split; [lia | reflexivity] | intros [_ [= ->]]; reflexivity].
    + split; [discriminate | intros [_ H]; discriminate H].
Qed.

Lemma read_commands_fuel (i : Z) (s : state) : read_commands i s <> OutOfFuel.
Proof.
  unfold read_commands. destruct (i <? 0); [discriminate |].
  destruct (commands s !! Z.to_nat i); discriminate.
Qed.

(** Eight rounds are enough for the [while] loop: it leaves as soon as
    [next_command] reaches 8. *)
Lemma fire_loop_fuel_gen (fuel : nat) :
  forall s : state,
    in_i16 (next_command s) ->
    (1 <= fuel)%nat ->
    (0 <= next_command s ->
       8 - next_command s <= Z.of_nat fuel /\ (next_command s = 32767 -> (2 <= fuel)%nat)) ->
    fire_loop fuel s <> OutOfFuel.
Proof.
  induction fuel as [|fuel IH]; intros s Hint Hfuel Hroom; [lia |].
  cbn [fire_loop].
  destruct (read_commands (next_command s) s) as [c | i |] eqn:Er; cbn.
  - apply read_commands_Done in Er as [Hnc _].
    destruct (c <=? wrap_u16 (TCNT1 s + 64)); [| discriminate].
    destruct (Z.geb_spec (wrap_i16 (next_command s + 1)) 8) as [Hge | Hlt];
      [discriminate |].
    specialize (Hroom Hnc) as [Hroom Hmax].
    unfold in_i16 in Hint.
    apply IH; cbn.
    + apply wrap_i16_range.
    + destruct (decide (next_command s = 32767)) as [E | NE]; [lia |].
      rewrite wrap_i16_small in Hlt by (unfold in_i16; lia). lia.
    + intros Hpos.
      destruct (decide (next_command s = 32767)) as [E | NE].
      * rewrite E in Hpos. vm_compute in Hpos. exfalso. apply Hpos. reflexivity.
      * rewrite wrap_i16_small in * by (unfold in_i16; lia). lia.
  - discriminate.
  - exfalso. exact (read_commands_fuel _ _ Er).
Qed.

Lemma fire_loop_fuel (s : state) :
  in_i16 (next_command s) -> fire_loop 8 s <> OutOfFuel.
Proof. intros H. apply fire_loop_fuel_gen; [exact H | lia | lia]. Qed.

(** The dispatcher never writes the counter. *)
Lemma fire_loop_TCNT1 (fuel : nat) :
  forall s s' : state, fire_loop fuel s = Done s' -> TCNT1 s' = TCNT1 s.
Proof.
  induction fuel as [|fuel IH]; intros s s' H; [discriminate H |].
  cbn [fire_loop] in H.
  destruct (read_commands (next_command s) s) as [c | i |]; cbn in H;
    [| discriminate H | discriminate H].
  destruct (c <=? wrap_u16 (TCNT1 s + 64)); [| injection H as <-; reflexivity].
  destruct (wrap_i16 (next_command s + 1) >=? 8).
  - injection H as <-. reflexivity.
  - apply IH in H. exact H.
Qed.

Lemma lower_loop_TCNT1 (first : Z) (n : nat) :
  forall (i : nat) (s s' : state),
    for_loopM i n (lower_body first) s = Done s' -> TCNT1 s' = TCNT1 s.
Proof.
  induction n as [|n IH]; intros i s s' H; cbn in H.
  - injection H as <-. reflexivity.
  - apply bind_Done in H as (s1 & H1 & H).
    apply bind_Done in H1 as (c & _ & H1). injection H1 as <-.
    apply IH in H. exact H.
Qed.

Lemma ISR_keeps_TCNT1 (s s' : state) :
  ISR_TIMER1_COMPA s = Done s' -> TCNT1 s' = TCNT1 s.
Proof.
  unfold ISR_TIMER1_COMPA. intros H.
  apply bind_Done in H as (s1 & E1 & H).
  apply bind_Done in H as (s2 & E2 & H).
  apply bind_Done in H as (c & _ & H).
  injection H as <-. cbn.
  apply lower_loop_TCNT1 in E2. apply fire_loop_TCNT1 in E1.
  rewrite E2, E1. reflexivity.
Qed.

(** When the handler returns, the comparator holds the queue entry under
    the cursor, read within the array. *)
Lemma ISR_rearm (s s' : state) :
  ISR_TIMER1_COMPA s = Done s' ->
  read_commands (next_command s') s' = Done (OCR1A s').
Proof.
  unfold ISR_TIMER1_COMPA. intros H.
  apply bind_Done in H as (s1 & _ & H).
  apply bind_Done in H as (s2 & _ & H).
  apply bind_Done in H as (c & Hc & H).
  injection H as <-. exact Hc.
Qed.

Lemma lower_loop_fuel (first : Z) (n : nat) :
  forall (i : nat) (s : state),
    for_loopM i n (lower_body first) s <> OutOfFuel.
Proof.
  induction n as [|n IH]; intros i s; cbn [for_loopM]; [discriminate |].
  destruct (lower_body first i s) as [s1 | k |] eqn:E; cbn.
  - apply IH.
  - discriminate.
  - unfold lower_body in E.
    destruct (read_commands (first + Z.of_nat i) s) as [c | k |] eqn:Er;
      cbn in E; [discriminate E | discriminate E |].
    exfalso. exact (read_commands_fuel _ _ Er).
Qed.

(** The handler always comes to an end: it returns or faults on a read. *)
Lemma ISR_fuel (s : state) :
  in_i16 (next_command s) -> ISR_TIMER1_COMPA s <> OutOfFuel.
Proof.
  intros Hint. unfold ISR_TIMER1_COMPA.
  destruct (fire_loop 8 _) as [s1 | k |] eqn:E1; cbn.
  - destruct (for_loopM 0 _ _ s1) as [s2 | k |] eqn:E2; cbn.
    + destruct (read_commands (next_command s2) s2) as [c | k |] eqn:E3; cbn;
        [discriminate | discriminate |].
      exfalso. exact (read_commands_fuel _ _ E3).
    + discriminate.
    + exfalso. exact (lower_loop_fuel _ _ _ _ E2).
  - discriminate.
  - exfalso. revert E1. apply fire_loop_fuel. exact Hint.
Qed.

Lemma fire_loop_drain (fuel : nat) :
  forall s : state,
    length (commands s) = 8%nat ->
    0 <= next_command s < 8 ->
    8 - next_command s <= Z.of_nat fuel ->
    (forall (k : nat) (c : Z), next_command s <= Z.of_nat k ->
       commands s !! k = Some c -> c <= wrap_u16 (TCNT1 s + 64)) ->
    exists s', fire_loop fuel s = Done s'
      /\ next_command s' = 8 /\ commands s' = commands s.
Proof.
  induction fuel as [|fuel IH]; intros s Hlen Hnc Hfuel Hdue; [lia |].
  cbn [fire_loop].
  destruct (lookup_lt_is_Some_2 (commands s) (Z.to_nat (next_command s))
              ltac:(lia)) as [c Hc].
  assert (Er : read_commands (next_command s) s = Done c)
    by (apply read_commands_Done; split; [lia | exact Hc]).
  rewrite Er. cbn.
  assert (Hle : c <= wrap_u16 (TCNT1 s + 64))
    by (apply (Hdue (Z.to_nat (next_command s))); [lia | exact Hc]).
  apply Z.leb_le in Hle. rewrite Hle.
  rewrite wrap_i16_small by (unfold in_i16; lia).
  destruct (Z.geb_spec (next_command s + 1) 8) as [Hge | Hlt].
  - eexists. split; [reflexivity |]. cbn. split; [lia | reflexivity].
  - destruct (IH (set_next_command (next_command s + 1)
                    (digitalWrite (pin_of c) HIGH s))) as (s' & E & Hn & Hcm).
    + exact Hlen.
    + cbn. lia.
    + cbn. lia.
    + cbn. intros k c' Hk Hl. apply (Hdue k); [lia | exact Hl].
    + exists s'. split; [exact E | split; [exact Hn | exact Hcm]].
Qed.

Lemma lower_loop_ok (first : Z) (n : nat) :
  forall (i : nat) (s : state),
    length (commands s) = 8%nat -> 0 <= first ->
    first + Z.of_nat i + Z.of_nat n <= 8 ->
    exists s', for_loopM i n (lower_body first) s = Done s'
      /\ commands s' = commands s /\ next_command s' = next_command s.
Proof.
  induction n as [|n IH]; intros i s Hlen Hf Hn; cbn [for_loopM].
  - exists s. repeat split.
  - destruct (lookup_lt_is_Some_2 (commands s) (Z.to_nat (first + Z.of_nat i))
                ltac:(lia)) as [c Hc].
    assert (Er : read_commands (first + Z.of_nat i) s = Done c)
      by (apply read_commands_Done; split; [lia | exact Hc]).
    assert (El : lower_body first i s = Done (digitalWrite (pin_of c) LOW s))
      by (unfold lower_body; rewrite Er; reflexivity).
    rewrite El. cbn [mbind outcome_bind].
    destruct (IH (S i) (digitalWrite (pin_of c) LOW s)) as (s' & E & Hcm & Hnc);
      [exact Hlen | exact Hf | lia |].
    exists s'. split; [exact E | split; [exact Hcm | exact Hnc]].
Qed.

(** C4.  Whenever the events still pending are all due, the loop consumes
    the queue to its end, and the re-arming statement then reads
    [commands[8]], one slot past the array. *)
Theorem C4_rearm_reads_past_queue (s : state) :
  length (commands s) = 8%nat ->
  0 <= next_command s < 8 ->
  (forall (k : nat) (c : Z), next_command s <= Z.of_nat k ->
     commands s !! k = Some c -> c <= wrap_u16 (TCNT1 s + 64)) ->
  ISR_TIMER1_COMPA s = OutOfBounds 8.
Proof.
  intros Hlen Hnc Hdue. unfold ISR_TIMER1_COMPA.
  set (s0 := digitalWrite led _ s).
  destruct (fire_loop_drain 8 s0) as (s1 & E1 & Hn1 & Hc1);
    [exact Hlen | exact Hnc | cbn; lia | exact Hdue |].
  rewrite E1. cbn [mbind outcome_bind].
  change (next_command s0) with (next_command s). rewrite Hn1.
  destruct (lower_loop_ok (next_command s) (Z.to_nat (8 - next_command s)) 0 s1)
    as (s2 & E2 & Hc2 & Hn2).
  - rewrite Hc1. exact Hlen.
  - lia.
  - lia.
  - rewrite E2. cbn [mbind outcome_bind].
    rewrite Hn2, Hn1. unfold read_commands.
    rewrite Hc2, Hc1. change (commands s0) with (commands s).
    rewrite lookup_ge_None_2 by (rewrite Hlen; lia). reflexivity.
Qed.

Lemma C4_rearm_reads_past_queue_witness :
  ISR_TIMER1_COMPA
    (set_TCNT1 14104
       (zero_cross_int (set_TCNT1 20000 (@publish exact dark initial_state))))
  = OutOfBounds 8.
Proof.
  apply C4_rearm_reads_past_queue.
  - reflexivity.
  - cbn. lia.
  - intros k c _ Hk.
    do 8 (destruct k as [|k];
          [vm_compute in Hk; injection Hk as <-; vm_compute; discriminate |]).
    vm_compute in Hk. discriminate Hk.
Defined.

(** The fixed-period handler does have the fallback: once the incremented
    tick exceeds [off] it lowers the eight outputs and holds the tick at
    [off]. *)
Lemma timerIsr_fallback (s : state) :
  off s < wrap_u8 (clock_tick s + 1) ->
  let s' := timerIsr s in
  clock_tick s' = off s
  /\ writes s' = writes s ++ ((fun p => (p, LOW)) <$> pin_assignments)
  /\ forall p, p ∈ pin_assignments -> pins s' !! p = Some LOW.
Proof.
  intros Hoff. unfold timerIsr. cbn [clock_tick set_clock_tick off].
  assert (E : (wrap_u8 (clock_tick s + 1) >? off s) = true)
    by (apply Z.gtb_lt; exact Hoff).
  rewrite E. cbn.
  split; [reflexivity |]. split.
  - rewrite <- !app_assoc. reflexivity.
  - intros p Hp.
    repeat (apply elem_of_cons in Hp as [-> | Hp];
            [simplify_map_eq; reflexivity |]).
    inversion Hp.
Qed.

Lemma legacy_timerIsr_fallback (s : state) :
  off s < wrap_u8 (clock_tick s + 1) -> Legacy.timerIsr s = timerIsr s.
Proof.
  intros Hoff. unfold Legacy.timerIsr, timerIsr.
  cbn [clock_tick set_clock_tick off].
  assert (E : (wrap_u8 (clock_tick s + 1) >? off s) = true)
    by (apply Z.gtb_lt; exact Hoff).
  rewrite E. reflexivity.
Qed.

(** C3.  The comparator-driven handler has no loss-of-sync fallback: it
    never writes the counter, and with the counter past [off] it still
    raises outputs.  First run: counter at 8000, past [off = 95]; channel 0
    is pulsed and the counter stays.  Second run: [low] raised to 105 by two
    'h' commands, counter at 17425, past [off] scaled by 166; channels 1 to
    7 are raised. *)
Theorem C3_dispatcher_no_fallback :
  (forall s s', ISR_TIMER1_COMPA s = Done s' -> TCNT1 s' = TCNT1 s)
  /\ (let s := set_TCNT1 8000 (@publish exact solo initial_state) in
      off s < TCNT1 s
      /\ exists s', ISR_TIMER1_COMPA s = Done s'
           /\ TCNT1 s' = 8000
           /\ writes s' = [(led, HIGH); (9, HIGH); (9, LOW)]
           /\ OCR1A s' = 14105)
  /\ (let s := set_TCNT1 17425 (set_next_command 1
                 (@publish exact solo
                    (serialEvent ["h"; "h"]%char initial_state))) in
      off s * 166 < TCNT1 s
      /\ exists s', fire_loop 8 s = Done s'
           /\ TCNT1 s' = 17425
           /\ writes s' = (fun p => (p, HIGH)) <$> drop 1 pin_assignments).
Proof.
  split; [exact ISR_keeps_TCNT1 |].
  split.
  - split; [vm_compute; reflexivity |].
    eexists. split; [vm_compute; reflexivity |].
    repeat split; vm_compute; reflexivity.
  - split; [vm_compute; reflexivity |].
    eexists. split; [vm_compute; reflexivity |].
    repeat split; vm_compute; reflexivity.
Qed.

(** ** The zero-cross synchronizer *)

(** C5, as the code has it.  An edge below the debounce threshold changes
    one thing: the counter value is still captured in
    [previous_zero_cross]. *)
Theorem C5_spurious_edge (s : state) :
  TCNT1 s < 1000 ->
  zero_cross_int s = set_previous_zero_cross (TCNT1 s) s.
Proof.
  intros H. unfold zero_cross_int.
  cbn [TCNT1 set_previous_zero_cross].
  apply Z.ltb_lt in H. rewrite H. reflexivity.
Qed.

Lemma C5_spurious_edge_witness :
  zero_cross_int (set_TCNT1 500 initial_state)
  = set_previous_zero_cross 500 (set_TCNT1 500 initial_state).
Proof.
  apply (C5_spurious_edge (set_TCNT1 500 initial_state)). cbn. lia.
Defined.

(** C5 as stated fails: the ignored edge at counter 500 changes the state. *)
Lemma C5_counterexample :
  zero_cross_int (set_TCNT1 500 initial_state) <> set_TCNT1 500 initial_state
  /\ previous_zero_cross (set_TCNT1 500 initial_state) = 0
  /\ previous_zero_cross (zero_cross_int (set_TCNT1 500 initial_state)) = 500.
Proof.
  split; [| split; reflexivity].
  intros H. apply (f_equal previous_zero_cross) in H. discriminate H.
Qed.




(** ** The serial command interface *)

Lemma serial_char_frame (c : ascii) (s : state) :
  high (serial_char c s) = high s
  /\ commands (serial_char c s) = commands s
  /\ lux (serial_char c s) = lux s.
Proof.
  unfold serial_char.
  repeat (match goal with |- context [if ?b then _ else _] => destruct b end);
    repeat split.
Qed.

Lemma serialEvent_frame (input : list ascii) :
  forall s : state,
    high (serialEvent input s) = high s
    /\ commands (serialEvent input s) = commands s
    /\ lux (serialEvent input s) = lux s.
Proof.
  induction input as [|c input IH]; intros s; [repeat split |].
  cbn [serialEvent fold_left].
  destruct (IH (serial_char c s)) as (Hh & Hc & Hl).
  destruct (serial_char_frame c s) as (Hh' & Hc' & Hl').
  unfold serialEvent in *.
  rewrite Hh, Hc, Hl, Hh', Hc', Hl'. repeat split.
Qed.

(** The queue a whole pass of [loop] leaves is the one [publish] builds
    after the first batch of serial commands. *)
Lemma loop_commands {R : Rounding} (input1 input2 : list ascii)
    (bright : nat -> Q) (s : state) :
  commands (loop input1 input2 bright s)
  = commands (publish bright (serialEvent input1 s)).
Proof.
  unfold loop.
  destruct (serialEvent_frame input2
              (publish bright (set_t
                 (if wrap_i16 (t (serialEvent input1 s) + 1) >=? 1024
                  then 0 else wrap_i16 (t (serialEvent input1 s) + 1))
                 (serialEvent input1 s)))) as (_ & -> & _).
  reflexivity.
Qed.

(** C9, as the code has it.  The commands adjust [delay_time] ('u', 'd'),
    [low] ('l', 'h') and [off] ('o', 'f') by ten, wrapping at the width of
    the variable; no input whatever changes [high]. *)
Theorem C9_serial_parameters (s : state) :
  (forall input : list ascii, high (serialEvent input s) = high s)
  /\ low (serial_char "l" s) = wrap_u8 (low s - 10)
  /\ low (serial_char "h" s) = wrap_u8 (low s + 10)
  /\ off (serial_char "o" s) = wrap_u8 (off s - 10)
  /\ off (serial_char "f" s) = wrap_u8 (off s + 10)
  /\ delay_time (serial_char "u" s) = wrap_u16 (delay_time s - 10)
  /\ delay_time (serial_char "d" s) = wrap_u16 (delay_time s + 10).
Proof.
  split; [intros input; apply serialEvent_frame |].
  repeat split.
Qed.

(** C9 as stated fails: no command, in no state, modifies [high]; 'h' acts
    on [low]. *)
Lemma C9_counterexample :
  ~ (exists (c : ascii) (s : state), high (serial_char c s) <> high s)
  /\ high (serial_char "h" initial_state) = 45
  /\ low (serial_char "h" initial_state) = 95.
Proof.
  split; [| split; reflexivity].
  intros (c & s & H). apply H. apply serial_char_frame.
Qed.

(** ** Traces of writes *)

Lemma emit_app (ws ws' : list (Z * bool)) (s : state) :
  emit (ws ++ ws') s = emit ws' (emit ws s).
Proof. unfold emit. apply fold_left_app. Qed.

Lemma emit_fields (ws : list (Z * bool)) :
  forall s : state,
    emit ws s
    = mkState (lux s) (clock_tick s) (delay_time s) (low s) (high s) (off s)
        (commands s) (next_command s) (toggly_State s) (previous_zero_cross s)
        (t s) (TCNT1 s) (OCR1A s) (replay ws (pins s)) (writes s ++ ws).
Proof.
  induction ws as [|w ws IH]; intros s.
  - cbn. rewrite app_nil_r. destruct s; reflexivity.
  - change (emit (w :: ws) s) with (emit ws (digitalWrite (fst w) (snd w) s)).
    rewrite IH. cbn. rewrite <- app_assoc. destruct w; reflexivity.
Qed.

Lemma emit_set_next_command (ws : list (Z * bool)) (v : Z) (s : state) :
  emit ws (set_next_command v s) = set_next_command v (emit ws s).
Proof. rewrite !emit_fields. reflexivity. Qed.

Lemma replay_app (ws ws' : list (Z * bool)) (m : gmap Z bool) :
  replay (ws ++ ws') m = replay ws' (replay ws m).
Proof. unfold replay. apply fold_left_app. Qed.

(** A pin that a run does not write keeps its level. *)
Lemma replay_other (ws : list (Z * bool)) (p : Z) :
  forall m : gmap Z bool, p ∉ ws.*1 -> replay ws m !! p = m !! p.
Proof.
  induction ws as [|[q v] ws IH]; intros m Hp; [reflexivity |].
  cbn in Hp. apply not_elem_of_cons in Hp as [Hne Hp].
  change (replay ((q, v) :: ws) m) with (replay ws (<[q := v]> m)).
  rewrite IH by exact Hp. apply lookup_insert_ne. congruence.
Qed.

(** After a run that writes one level only, every pin it writes has it. *)
Lemma replay_level (ws : list (Z * bool)) (v : bool) (p : Z) :
  forall m : gmap Z bool,
    Forall (fun w => snd w = v) ws -> p ∈ ws.*1 -> replay ws m !! p = Some v.
Proof.
  induction ws as [|[q u] ws IH]; intros m Hv Hp; [inversion Hp |].
  apply Forall_cons in Hv as [Hu Hv]. cbn in Hu. subst u.
  change (replay ((q, v) :: ws) m) with (replay ws (<[q := v]> m)).
  destruct (decide (p ∈ ws.*1)) as [Hin | Hout].
  - apply IH; assumption.
  - rewrite replay_other by exact Hout.
    cbn in Hp. apply elem_of_cons in Hp as [-> | Hp]; [| contradiction].
    apply lookup_insert_eq.
Qed.

Lemma pin_of_channel (c : Z) : pin_of c ∈ pin_assignments.
Proof.
  unfold pin_of.
  pose proof (channel_range c) as Hr. unfold channel in Hr.
  apply list_elem_of_lookup. exists (Z.to_nat (Z.land c 7)).
  apply list_lookup_lookup_total_lt. cbn. lia.
Qed.

Lemma led_not_channel : led ∉ pin_assignments.
Proof.
  unfold led, pin_assignments. intros H.
  repeat (apply elem_of_cons in H as [H | H]; [discriminate H |]).
  inversion H.
Qed.

Lemma raise_pins (batch : list Z) : (raise batch).*1 = pin_of <$> batch.
Proof. unfold raise. rewrite <- list_fmap_compose. reflexivity. Qed.

Lemma lower_pins (batch : list Z) : (lower batch).*1 = pin_of <$> batch.
Proof. unfold lower. rewrite <- list_fmap_compose. reflexivity. Qed.

Lemma lower_level (batch : list Z) : Forall (fun w => snd w = LOW) (lower batch).
Proof. unfold lower. apply Forall_fmap, Forall_forall. intros c _. reflexivity. Qed.

(** Raising a batch and then lowering it leaves every triac output low if
    they all were. *)
Lemma pulse_all_low (pre : list (Z * bool)) (batch : list Z) (m : gmap Z bool) :
  (forall p, p ∈ pin_assignments -> m !! p = Some LOW) ->
  (forall p, p ∈ pre.*1 -> p ∉ pin_assignments) ->
  forall p, p ∈ pin_assignments ->
    replay (pre ++ raise batch ++ lower batch) m !! p = Some LOW.
Proof.
  intros Hm Hpre p Hp.
  rewrite app_assoc, replay_app.
  destruct (decide (p ∈ pin_of <$> batch)) as [Hin | Hout].
  - apply replay_level; [apply lower_level | rewrite lower_pins; exact Hin].
  - rewrite replay_other by (rewrite lower_pins; exact Hout).
    rewrite replay_app.
    rewrite replay_other by (rewrite raise_pins; exact Hout).
    rewrite replay_other; [apply Hm; exact Hp |].
    intros Hc. apply (Hpre p Hc Hp).
Qed.

(** ** What one dispatcher call does *)

Lemma slice_cons (first : Z) (n : nat) (cmds : list Z) (c : Z) :
  0 <= first -> cmds !! Z.to_nat first = Some c ->
  slice first (S n) cmds = c :: slice (first + 1) n cmds.
Proof.
  intros Hf Hc. unfold slice.
  rewrite (drop_S _ _ _ Hc). cbn [take].
  replace (Z.to_nat (first + 1)) with (S (Z.to_nat first)) by lia.
  reflexivity.
Qed.

Lemma set_next_command_same (s : state) : set_next_command (next_command s) s = s.
Proof. destruct s; reflexivity. Qed.

(** The [while] loop fires the pending entries one after the other as long
    as they are due, and stops at the first that is not, or at the end of
    the queue. *)
Lemma fire_loop_spec (fuel : nat) :
  forall s s' : state,
    length (commands s) = 8%nat ->
    fire_loop fuel s = Done s' ->
    exists n : nat,
      0 <= next_command s /\ next_command s + Z.of_nat n <= 8
      /\ length (slice (next_command s) n (commands s)) = n
      /\ Forall (due (TCNT1 s)) (slice (next_command s) n (commands s))
      /\ s' = set_next_command (next_command s + Z.of_nat n)
                (emit (raise (slice (next_command s) n (commands s))) s)
      /\ (next_command s + Z.of_nat n < 8 ->
          exists c, commands s !! Z.to_nat (next_command s + Z.of_nat n) = Some c
                    /\ ~ due (TCNT1 s) c).
Proof.
  induction fuel as [|fuel IH]; intros s s' Hlen H; [discriminate H |].
  cbn [fire_loop] in H.
  apply bind_Done in H as (c & Er & H).
  apply read_commands_Done in Er as [Hnc Hc].
  pose proof (lookup_lt_Some _ _ _ Hc) as Hlt. rewrite Hlen in Hlt.
  destruct (Z.leb_spec c (wrap_u16 (TCNT1 s + 64))) as [Hdue | Hnot].
  - cbn [next_command set_next_command digitalWrite] in H.
    rewrite wrap_i16_small in H by (unfold in_i16; lia).
    destruct (Z.geb_spec (next_command s + 1) 8) as [Hge | Hsm].
    + injection H as <-. exists 1%nat.
      rewrite (slice_cons _ 0 _ c Hnc Hc).
      split; [lia |]. split; [lia |]. split; [reflexivity |].
      split; [repeat constructor; exact Hdue |].
      split; [reflexivity | lia].
    + apply IH in H; [| exact Hlen].
      destruct H as (n & _ & Hn & Hl & Hd & -> & Hstop).
      cbn [next_command set_next_command digitalWrite commands TCNT1] in *.
      exists (S n).
      rewrite (slice_cons _ n _ c Hnc Hc).
      split; [lia |]. split; [lia |]. split; [cbn; lia |].
      split; [constructor; [exact Hdue | exact Hd] |].
      split.
      * replace (next_command s + Z.of_nat (S n))
          with (next_command s + 1 + Z.of_nat n) by lia.
        change (raise (c :: slice (next_command s + 1) n (commands s)))
          with ((pin_of c, HIGH) :: raise (slice (next_command s + 1) n (commands s))).
        change (emit ((pin_of c, HIGH) :: ?ws) s)
          with (emit ws (digitalWrite (pin_of c) HIGH s)).
        rewrite emit_set_next_command. reflexivity.
      * replace (next_command s + Z.of_nat (S n))
          with (next_command s + 1 + Z.of_nat n) by lia.
        exact Hstop.
  - injection H as <-. exists 0%nat.
    split; [lia |]. split; [lia |]. split; [reflexivity |].
    split; [constructor |].
    split.
    + rewrite Z.add_0_r. cbn. symmetry. apply set_next_command_same.
    + intros _. rewrite Z.add_0_r. exists c. split; [exact Hc |].
      unfold due. lia.
Qed.

Lemma lower_loop_spec (first : Z) (n : nat) :
  forall (i : nat) (s : state),
    length (commands s) = 8%nat -> 0 <= first ->
    first + Z.of_nat i + Z.of_nat n <= 8 ->
    for_loopM i n (lower_body first) s
    = Done (emit (lower (slice (first + Z.of_nat i) n (commands s))) s).
Proof.
  induction n as [|n IH]; intros i s Hlen Hf Hn; cbn [for_loopM].
  - reflexivity.
  - destruct (lookup_lt_is_Some_2 (commands s) (Z.to_nat (first + Z.of_nat i))
                ltac:(lia)) as [c Hc].
    assert (Er : read_commands (first + Z.of_nat i) s = Done c)
      by (apply read_commands_Done; split; [lia | exact Hc]).
    assert (El : lower_body first i s = Done (digitalWrite (pin_of c) LOW s))
      by (unfold lower_body; rewrite Er; reflexivity).
    rewrite El. cbn [mbind outcome_bind].
    rewrite IH by (cbn; lia || assumption).
    rewrite (slice_cons (first + Z.of_nat i) n _ c ltac:(lia) Hc).
    replace (first + Z.of_nat (S i)) with (first + Z.of_nat i + 1) by lia.
    reflexivity.
Qed.

(** One call that returns: the LED write, the batch raised, the same batch
    lowered, the cursor moved past the batch, and the comparator set to the
    entry now under the cursor, which is not yet due. *)
Lemma ISR_spec (s s' : state) :
  length (commands s) = 8%nat ->
  ISR_TIMER1_COMPA s = Done s' ->
  exists (n : nat) (c : Z),
    let batch := slice (next_command s) n (commands s) in
    let blink := (led, if Z.rem (next_command s) 2 =? 0 then HIGH else LOW) in
    0 <= next_command s /\ next_command s + Z.of_nat n < 8
    /\ length batch = n
    /\ Forall (due (TCNT1 s)) batch
    /\ commands s !! Z.to_nat (next_command s + Z.of_nat n) = Some c
    /\ ~ due (TCNT1 s) c
    /\ s' = set_OCR1A c
              (set_next_command (next_command s + Z.of_nat n)
                 (emit (blink :: raise batch ++ lower batch) s)).
Proof.
  intros Hlen H. unfold ISR_TIMER1_COMPA in H.
  apply bind_Done in H as (s1 & E1 & H).
  apply bind_Done in H as (s2 & E2 & H).
  apply bind_Done in H as (c & Er & H).
  injection H as <-.
  apply fire_loop_spec in E1; [| exact Hlen].
  destruct E1 as (n & Hnc & Hn & Hl & Hd & -> & Hstop).
  cbn [next_command set_next_command digitalWrite commands TCNT1] in *.
  replace (Z.to_nat (next_command s + Z.of_nat n - next_command s)) with n
    in E2 by lia.
  rewrite lower_loop_spec in E2;
    [| rewrite emit_fields; exact Hlen | exact Hnc | lia].
  injection E2 as <-.
  rewrite !emit_fields in Er. cbn in Er.
  apply read_commands_Done in Er as [_ Hc].
  cbn [commands] in Hc.
  pose proof (lookup_lt_Some _ _ _ Hc) as Hlt. rewrite Hlen in Hlt.
  destruct (Hstop ltac:(lia)) as (c' & Hc' & Hnot).
  rewrite Hc in Hc'. injection Hc' as <-.
  exists n, c.
  split; [exact Hnc |]. split; [lia |]. split; [exact Hl |].
  split; [exact Hd |]. split; [exact Hc |]. split; [exact Hnot |].
  rewrite !emit_fields. cbn.
  rewrite Z.add_0_r, !replay_app, <- !app_assoc. reflexivity.
Qed.

Lemma fire_loop_progress (fuel : nat) :
  forall s : state,
    length (commands s) = 8%nat ->
    0 <= next_command s < 8 ->
    8 - next_command s <= Z.of_nat fuel ->
    (exists (k : nat) (c : Z), next_command s <= Z.of_nat k
        /\ commands s !! k = Some c /\ ~ due (TCNT1 s) c) ->
    exists s', fire_loop fuel s = Done s' /\ next_command s' < 8.
Proof.
  induction fuel as [|fuel IH]; intros s Hlen Hnc Hfuel (k & ck & Hk & Hck & Hnd);
    [lia |].
  cbn [fire_loop].
  destruct (lookup_lt_is_Some_2 (commands s) (Z.to_nat (next_command s))
              ltac:(lia)) as [c Hc].
  assert (Er : read_commands (next_command s) s = Done c)
    by (apply read_commands_Done; split; [lia | exact Hc]).
  rewrite Er. cbn [mbind outcome_bind].
  destruct (Z.leb_spec c (wrap_u16 (TCNT1 s + 64))) as [Hdue | Hnot].
  - cbn [next_command set_next_command digitalWrite].
    rewrite wrap_i16_small by (unfold in_i16; lia).
    assert (Hne : Z.to_nat (next_command s) <> k).
    { intros <-. rewrite Hc in Hck. injection Hck as <-. apply Hnd. exact Hdue. }
    pose proof (lookup_lt_Some _ _ _ Hck) as Hklt. rewrite Hlen in Hklt.
    destruct (Z.geb_spec (next_command s + 1) 8) as [Hge | Hsm]; [lia |].
    apply IH.
    + exact Hlen.
    + cbn. lia.
    + cbn. lia.
    + exists k, ck. cbn. split; [lia | split; assumption].
  - exists s. split; [reflexivity | lia].
Qed.


(** With an entry at or after the cursor not yet due, the call returns. *)
Lemma ISR_returns_when_pending (s : state) :
  length (commands s) = 8%nat ->
  0 <= next_command s < 8 ->
  (exists (k : nat) (c : Z), next_command s <= Z.of_nat k
      /\ commands s !! k = Some c /\ ~ due (TCNT1 s) c) ->
  exists s', ISR_TIMER1_COMPA s = Done s'.
Proof.
  intros Hlen Hnc Hpend. unfold ISR_TIMER1_COMPA.
  set (s0 := digitalWrite led _ s).
  destruct (fire_loop_progress 8 s0) as (s1 & E1 & Hn1);
    [exact Hlen | exact Hnc | cbn; lia | exact Hpend |].
  rewrite E1. cbn [mbind outcome_bind].
  destruct (fire_loop_spec 8 s0 s1 Hlen E1) as (n & _ & Hn & _ & _ & Es1 & _).
  assert (Hc1 : commands s1 = commands s)
    by (rewrite Es1, emit_fields; reflexivity).
  assert (Hnc1 : next_command s1 = next_command s + Z.of_nat n)
    by (rewrite Es1; reflexivity).
  rewrite lower_loop_spec;
    [| rewrite Hc1; exact Hlen | cbn; lia | rewrite Hnc1; cbn; lia].
  cbn [mbind outcome_bind].
  rewrite emit_fields. cbn [next_command].
  destruct (lookup_lt_is_Some_2 (commands s) (Z.to_nat (next_command s1))
              ltac:(lia)) as [c Hc].
  unfold read_commands. cbn [commands]. rewrite Hc1, Hc.
  destruct (Z.ltb_spec (next_command s1) 0); [lia |].
  eexists. reflexivity.
Qed.






(** X4.  The dispatcher touches nothing but the cursor, the comparator and
    the pins: queue, ticks, configuration, diagnostics and the counter are
    as before. *)
Theorem ISR_frame (s s' : state) :
  length (commands s) = 8%nat ->
  ISR_TIMER1_COMPA s = Done s' ->
  commands s' = commands s /\ lux s' = lux s
  /\ low s' = low s /\ high s' = high s /\ off s' = off s
  /\ delay_time s' = delay_time s /\ clock_tick s' = clock_tick s
  /\ previous_zero_cross s' = previous_zero_cross s
  /\ toggly_State s' = toggly_State s /\ t s' = t s /\ TCNT1 s' = TCNT1 s.
Proof.
  intros Hlen H.
  destruct (ISR_spec s s' Hlen H) as (n & c & _ & _ & _ & _ & _ & _ & ->).
  rewrite emit_fields. cbn. repeat split.
Qed.

Lemma ISR_frame_witness :
  let s := set_TCNT1 8000 (@publish exact solo initial_state) in
  let s' := set_OCR1A 14105 (set_next_command 1
              (emit [(led, HIGH); (9, HIGH); (9, LOW)] s)) in
  commands s' = commands s /\ lux s' = lux s
  /\ low s' = low s /\ high s' = high s /\ off s' = off s
  /\ delay_time s' = delay_time s /\ clock_tick s' = clock_tick s
  /\ previous_zero_cross s' = previous_zero_cross s
  /\ toggly_State s' = toggly_State s /\ t s' = t s /\ TCNT1 s' = TCNT1 s.
Proof.
  apply ISR_frame; vm_compute; reflexivity.
Defined.

(** X5.  If every triac output is low when the dispatcher is entered, every
    triac output is low when it returns: each output raised in the call is
    lowered in the same call. *)
Theorem ISR_keeps_outputs_low (s s' : state) :
  length (commands s) = 8%nat ->
  all_low s ->
  ISR_TIMER1_COMPA s = Done s' ->
  all_low s'.
Proof.
  intros Hlen Hlow H.
  destruct (ISR_spec s s' Hlen H) as (n & c & _ & _ & _ & _ & _ & _ & ->).
  intros p Hp. rewrite emit_fields. cbn [pins set_OCR1A set_next_command].
  change (?b :: raise ?l ++ lower ?l) with ([b] ++ raise l ++ lower l).
  apply pulse_all_low; [exact Hlow | | exact Hp].
  intros q Hq. cbn in Hq. apply list_elem_of_singleton in Hq as ->.
  exact led_not_channel.
Qed.

Lemma ISR_keeps_outputs_low_witness :
  let s := set_TCNT1 8000 (@publish exact solo initial_state) in
  let s' := set_OCR1A 14105 (set_next_command 1
              (emit [(led, HIGH); (9, HIGH); (9, LOW)] s)) in
  all_low s'.
Proof.
  apply (ISR_keeps_outputs_low
           (set_TCNT1 8000 (@publish exact solo initial_state))).
  - reflexivity.
  - intros p Hp.
    repeat (apply elem_of_cons in Hp as [-> | Hp]; [vm_compute; reflexivity |]).
    inversion Hp.
  - vm_compute. reflexivity.
Defined.

(** X6.  Entered with the cursor outside 0..7 (it stands at 8 after a call
    that ran off the queue), the dispatcher reads out of bounds in the very
    first test of its loop. *)
Theorem ISR_cursor_out_of_range (s : state) :
  length (commands s) = 8%nat ->
  ~ (0 <= next_command s < 8) ->
  ISR_TIMER1_COMPA s = OutOfBounds (next_command s).
Proof.
  intros Hlen Hnc. unfold ISR_TIMER1_COMPA.
  set (s0 := digitalWrite led _ s).
  assert (Er : read_commands (next_command s0) s0 = OutOfBounds (next_command s)).
  { unfold read_commands. change (next_command s0) with (next_command s).
    change (commands s0) with (commands s).
    destruct (Z.ltb_spec (next_command s) 0) as [Hneg | Hpos]; [reflexivity |].
    rewrite lookup_ge_None_2 by (rewrite Hlen; lia). reflexivity. }
  cbn [fire_loop]. rewrite Er. reflexivity.
Qed.

Lemma ISR_cursor_out_of_range_witness :
  ISR_TIMER1_COMPA (set_next_command 8 initial_state) = OutOfBounds 8.
Proof.
  apply (ISR_cursor_out_of_range (set_next_command 8 initial_state)).
  - reflexivity.
  - cbn. lia.
Defined.


(** X7.  Whatever the queue holds, the dispatcher's loop makes at most
    eight rounds: a call always ends, by returning or by a read outside the
    queue. *)
Theorem ISR_ends (s : state) :
  in_i16 (next_command s) ->
  exists r : state + Z,
    ISR_TIMER1_COMPA s = match r with inl s' => Done s' | inr i => OutOfBounds i end.
Proof.
  intros Hint. pose proof (ISR_fuel s Hint) as Hf.
  destruct (ISR_TIMER1_COMPA s) as [s' | i |].
  - exists (inl s'). reflexivity.
  - exists (inr i). reflexivity.
  - contradiction.
Qed.

Lemma ISR_ends_witness :
  exists r : state + Z,
    ISR_TIMER1_COMPA initial_state
    = match r with inl s' => Done s' | inr i => OutOfBounds i end.
Proof. apply ISR_ends. unfold in_i16. cbn. lia. Defined.

(** A non-empty slice starts with the entry under its first slot. *)
Lemma slice_head (first : Z) (n : nat) (cmds : list Z) (c : Z) :
  0 <= first -> cmds !! Z.to_nat first = Some c ->
  length (slice first n cmds) = n -> n <> 0%nat ->
  exists rest, slice first n cmds = c :: rest.
Proof.
  intros Hf Hc Hl Hn. destruct n as [|n]; [contradiction |].
  rewrite (slice_cons first n cmds c Hf Hc). eexists. reflexivity.
Qed.

(** X8.  A compare match that comes while the entry under the cursor is
    still more than 64 ticks away fires no output: the call only sets the
    LED and re-arms the comparator at that same entry. *)
Theorem ISR_nothing_due (s : state) (c : Z) :
  length (commands s) = 8%nat ->
  0 <= next_command s ->
  commands s !! Z.to_nat (next_command s) = Some c ->
  wrap_u16 (TCNT1 s + 64) < c ->
  ISR_TIMER1_COMPA s
  = Done (set_OCR1A c
            (digitalWrite led (if Z.rem (next_command s) 2 =? 0 then HIGH else LOW) s)).
Proof.
  intros Hlen Hnc Hc Hnd.
  destruct (ISR_returns_when_pending s) as [s' H].
  { exact Hlen. }
  { pose proof (lookup_lt_Some _ _ _ Hc) as Hlt. rewrite Hlen in Hlt. lia. }
  { exists (Z.to_nat (next_command s)), c.
    split; [lia | split; [exact Hc | unfold due; lia]]. }
  rewrite H. f_equal.
  destruct (ISR_spec s s' Hlen H) as (n & c' & _ & Hn & Hl & Hd & Hc' & _ & ->).
  destruct (decide (n = 0%nat)) as [-> | Hne].
  - rewrite Z.add_0_r in *. rewrite Hc in Hc'. injection Hc' as <-.
    cbn. destruct s; reflexivity.
  - destruct (slice_head _ _ _ c Hnc Hc Hl Hne) as [rest Hr].
    rewrite Hr in Hd. apply Forall_cons in Hd as [Hdue _].
    unfold due in Hdue. lia.
Qed.

Lemma ISR_nothing_due_witness :
  let s := zero_cross_int (set_TCNT1 20000 (@publish exact ramp initial_state)) in
  ISR_TIMER1_COMPA s
  = Done (set_OCR1A 8303
            (digitalWrite led (if Z.rem (next_command s) 2 =? 0 then HIGH else LOW) s)).
Proof.
  apply (ISR_nothing_due
           (zero_cross_int (set_TCNT1 20000 (@publish exact ramp initial_state))));
    vm_compute; first [reflexivity | discriminate].
Defined.

(** ** The fixed-period handlers *)

Lemma emit_keeps (ws : list (Z * bool)) (s : state) :
  lux (emit ws s) = lux s /\ clock_tick (emit ws s) = clock_tick s
  /\ off (emit ws s) = off s.
Proof. rewrite emit_fields. repeat split. Qed.

(** A loop whose body writes some pins when a test on [lux] and
    [clock_tick] holds is one run of writes. *)
Lemma for_loop_emit (cond : nat -> list Z -> Z -> bool)
    (ws : nat -> list (Z * bool)) :
  forall (n i : nat) (s : state),
    for_loop i n
      (fun k st => if cond k (lux st) (clock_tick st) then emit (ws k) st else st) s
    = emit (flat_map (fun k => if cond k (lux s) (clock_tick s) then ws k else [])
              (seq i n)) s.
Proof.
  induction n as [|n IH]; intros i s; [reflexivity |].
  cbn [for_loop seq flat_map].
  rewrite emit_app, IH.
  destruct (cond i (lux s) (clock_tick s)).
  - destruct (emit_keeps (ws i) s) as (-> & -> & _). reflexivity.
  - reflexivity.
Qed.

Lemma flat_map_filter {A B : Type} (c : A -> bool) (f : A -> B) (l : list A) :
  flat_map (fun k => if c k then [f k] else []) l = f <$> List.filter c l.
Proof.
  induction l as [|a l IH]; [reflexivity |].
  cbn. destruct (c a); cbn; rewrite IH; reflexivity.
Qed.

(** The channels the handler of the comparator-era file fires at a tick. *)
Lemma raise_due_loop (s : state) :
  for_loop 0 8 raise_due s
  = emit ((fun k => (pin_assignments !!! k, HIGH))
            <$> List.filter (fun k => lux s !!! k <=? clock_tick s) (seq 0 8)) s.
Proof.
  rewrite <- flat_map_filter.
  exact (for_loop_emit (fun k l tk => l !!! k <=? tk)
           (fun k => [(pin_assignments !!! k, HIGH)]) 8 0 s).
Qed.

Lemma lower_due_loop (s : state) :
  for_loop 0 8 lower_due s
  = emit ((fun k => (pin_assignments !!! k, LOW))
            <$> List.filter (fun k => lux s !!! k <=? clock_tick s) (seq 0 8)) s.
Proof.
  rewrite <- flat_map_filter.
  exact (for_loop_emit (fun k l tk => l !!! k <=? tk)
           (fun k => [(pin_assignments !!! k, LOW)]) 8 0 s).
Qed.

Lemma pulse_due_loop (s : state) :
  for_loop 0 8 Legacy.pulse_due s
  = emit (flat_map
            (fun k => if lux s !!! k =? clock_tick s
                      then [(pin_assignments !!! k, HIGH); (pin_assignments !!! k, LOW)]
                      else [])
            (seq 0 8)) s.
Proof.
  exact (for_loop_emit (fun k l tk => l !!! k =? tk)
           (fun k => [(pin_assignments !!! k, HIGH); (pin_assignments !!! k, LOW)])
           8 0 s).
Qed.

Lemma all_off_emit (s : state) :
  all_off s = emit ((fun p => (p, LOW)) <$> pin_assignments) s.
Proof. reflexivity. Qed.

Lemma timerIsr_below (s : state) :
  wrap_u8 (clock_tick s + 1) <= off s ->
  let tick := wrap_u8 (clock_tick s + 1) in
  let chans := List.filter (fun k => lux s !!! k <=? tick) (seq 0 8) in
  timerIsr s
  = emit (((fun k => (pin_assignments !!! k, HIGH)) <$> chans)
          ++ ((fun k => (pin_assignments !!! k, LOW)) <$> chans))
      (set_clock_tick tick s).
Proof.
  intros Hle tick chans. unfold timerIsr.
  cbn [clock_tick set_clock_tick off].
  assert (E : (wrap_u8 (clock_tick s + 1) >? off s) = false)
    by (rewrite Z.gtb_ltb; apply Z.ltb_ge; exact Hle).
  rewrite E, raise_due_loop, lower_due_loop, emit_app.
  destruct (emit_keeps
    ((fun k => (pin_assignments !!! k, HIGH))
       <$> List.filter (fun k => lux (set_clock_tick (wrap_u8 (clock_tick s + 1)) s) !!! k
                                  <=? clock_tick (set_clock_tick (wrap_u8 (clock_tick s + 1)) s))
             (seq 0 8))
    (set_clock_tick (wrap_u8 (clock_tick s + 1)) s)) as (-> & -> & _).
  reflexivity.
Qed.

(** X9.  Below the threshold the handler of the comparator-era file counts
    the tick, raises every channel whose [lux] is at or below the new tick
    and then lowers the same channels; a channel once due is therefore
    pulsed again at every later tick. *)
Theorem timerIsr_pulses (s : state) :
  wrap_u8 (clock_tick s + 1) <= off s ->
  let tick := wrap_u8 (clock_tick s + 1) in
  let chans := List.filter (fun k => lux s !!! k <=? tick) (seq 0 8) in
  timerIsr s
  = emit (((fun k => (pin_assignments !!! k, HIGH)) <$> chans)
          ++ ((fun k => (pin_assignments !!! k, LOW)) <$> chans))
      (set_clock_tick tick s).
Proof. exact (timerIsr_below s). Qed.

Lemma timerIsr_pulses_witness :
  let s := set_clock_tick 9 (set_lux [10; 10; 20; 5; 30; 40; 50; 60] initial_state) in
  let tick := wrap_u8 (clock_tick s + 1) in
  let chans := List.filter (fun k => lux s !!! k <=? tick) (seq 0 8) in
  timerIsr s
  = emit (((fun k => (pin_assignments !!! k, HIGH)) <$> chans)
          ++ ((fun k => (pin_assignments !!! k, LOW)) <$> chans))
      (set_clock_tick tick s).
Proof.
  apply (timerIsr_pulses
           (set_clock_tick 9 (set_lux [10; 10; 20; 5; 30; 40; 50; 60] initial_state))).
  vm_compute. discriminate.
Defined.

Lemma legacy_timerIsr_below (s : state) :
  wrap_u8 (clock_tick s + 1) <= off s ->
  let tick := wrap_u8 (clock_tick s + 1) in
  Legacy.timerIsr s
  = emit (flat_map
            (fun k => if lux s !!! k =? tick
                      then [(pin_assignments !!! k, HIGH); (pin_assignments !!! k, LOW)]
                      else [])
            (seq 0 8))
      (set_clock_tick tick s).
Proof.
  intros Hle tick. unfold Legacy.timerIsr.
  cbn [clock_tick set_clock_tick off].
  assert (E : (wrap_u8 (clock_tick s + 1) >? off s) = false)
    by (rewrite Z.gtb_ltb; apply Z.ltb_ge; exact Hle).
  rewrite E, pulse_due_loop. reflexivity.
Qed.

(** X10.  In the older program a call below the threshold counts the tick
    and gives one HIGH-then-LOW pulse to each channel whose [lux] equals
    the new tick, in channel order, and to no other. *)
Theorem legacy_timerIsr_pulses (s : state) :
  wrap_u8 (clock_tick s + 1) <= off s ->
  let tick := wrap_u8 (clock_tick s + 1) in
  Legacy.timerIsr s
  = emit (flat_map
            (fun k => if lux s !!! k =? tick
                      then [(pin_assignments !!! k, HIGH); (pin_assignments !!! k, LOW)]
                      else [])
            (seq 0 8))
      (set_clock_tick tick s).
Proof. exact (legacy_timerIsr_below s). Qed.

Lemma legacy_timerIsr_pulses_witness :
  let s := set_clock_tick 9 (set_lux [10; 10; 20; 5; 30; 40; 50; 60] initial_state) in
  let tick := wrap_u8 (clock_tick s + 1) in
  Legacy.timerIsr s
  = emit (flat_map
            (fun k => if lux s !!! k =? tick
                      then [(pin_assignments !!! k, HIGH); (pin_assignments !!! k, LOW)]
                      else [])
            (seq 0 8))
      (set_clock_tick tick s).
Proof.
  apply (legacy_timerIsr_pulses
           (set_clock_tick 9 (set_lux [10; 10; 20; 5; 30; 40; 50; 60] initial_state))).
  vm_compute. discriminate.
Defined.

Lemma low_writes_level :
  Forall (fun w : Z * bool => snd w = LOW) ((fun p => (p, LOW)) <$> pin_assignments).
Proof. repeat constructor. Qed.

Lemma timerIsr_above (s : state) :
  off s < wrap_u8 (clock_tick s + 1) ->
  timerIsr s
  = set_clock_tick (off s) (emit ((fun p => (p, LOW)) <$> pin_assignments) s)
  /\ Legacy.timerIsr s = timerIsr s.
Proof.
  intros Hoff. unfold Legacy.timerIsr, timerIsr.
  cbn [clock_tick set_clock_tick off].
  assert (E : (wrap_u8 (clock_tick s + 1) >? off s) = true)
    by (apply Z.gtb_lt; exact Hoff).
  rewrite E. split; reflexivity.
Qed.

Lemma fallback_fields (s : state) :
  let s' := set_clock_tick (off s)
              (emit ((fun p => (p, LOW)) <$> pin_assignments) s) in
  clock_tick s' = off s /\ off s' = off s /\ lux s' = lux s /\ all_low s'
  /\ writes s' = writes s ++ ((fun p => (p, LOW)) <$> pin_assignments).
Proof.
  cbv zeta. rewrite emit_fields.
  cbn [clock_tick off lux writes set_clock_tick].
  repeat split.
  intros p Hp. cbn [pins set_clock_tick].
  apply replay_level; [apply low_writes_level |].
  rewrite <- list_fmap_compose.
  replace (fst ∘ (fun p : Z => (p, LOW))) with (@id Z) by reflexivity.
  rewrite list_fmap_id. exact Hp.
Qed.

Lemma fires_app (p : Z) (ws ws' : list (Z * bool)) :
  fires p (ws ++ ws') = (fires p ws + fires p ws')%nat.
Proof. unfold fires. rewrite filter_app, length_app. reflexivity. Qed.

Lemma fires_low (p : Z) : fires p ((fun p => (p, LOW)) <$> pin_assignments) = 0%nat.
Proof.
  unfold fires, pin_assignments. cbn [fmap list_fmap].
  repeat (rewrite filter_cons_False by (intros H; discriminate H)).
  reflexivity.
Qed.

(** X11.  Loss of synchronisation in the fixed-period handlers: once the
    counted tick passes [off] the call lowers all eight outputs and holds
    the tick at [off], and, [off] being below 255, every later call does the
    same, so no output is raised again until a zero crossing resets the
    tick. *)
Theorem timerIsr_latched (s : state) (n : nat) :
  0 <= off s < 255 ->
  off s < wrap_u8 (clock_tick s + 1) ->
  let s' := Nat.iter (S n) timerIsr s in
  s' = Nat.iter (S n) Legacy.timerIsr s
  /\ clock_tick s' = off s
  /\ all_low s'
  /\ writes s' = writes s
       ++ concat (replicate (S n) ((fun p => (p, LOW)) <$> pin_assignments)).
Proof.
  intros Hoff Hover. cbv zeta.
  induction n as [|n IH].
  - change (Nat.iter 1 timerIsr s) with (timerIsr s).
    change (Nat.iter 1 Legacy.timerIsr s) with (Legacy.timerIsr s).
    destruct (timerIsr_above s Hover) as [E ->]. rewrite E.
    destruct (fallback_fields s) as (Ht & _ & _ & Hal & Hw).
    split; [reflexivity |]. split; [exact Ht |]. split; [exact Hal |].
    rewrite Hw. cbn [replicate concat]. rewrite app_nil_r. reflexivity.
  - destruct IH as (Eleg & Htick & _ & Hw).
    set (sn := Nat.iter (S n) timerIsr s) in *.
    change (Nat.iter (S (S n)) timerIsr s) with (timerIsr sn).
    change (Nat.iter (S (S n)) Legacy.timerIsr s)
      with (Legacy.timerIsr (Nat.iter (S n) Legacy.timerIsr s)).
    rewrite <- Eleg.
    assert (Hoffn : off sn = off s).
    { clear -sn. subst sn. generalize (S n). intros m.
      induction m as [|m IHm]; [reflexivity |].
      change (Nat.iter (S m) timerIsr s) with (timerIsr (Nat.iter m timerIsr s)).
      rewrite <- IHm. unfold timerIsr. cbn [clock_tick set_clock_tick off].
      destruct (_ >? _).
      - rewrite all_off_emit, emit_fields. reflexivity.
      - rewrite lower_due_loop, raise_due_loop, !emit_fields. reflexivity. }
    assert (Hover' : off sn < wrap_u8 (clock_tick sn + 1)).
    { rewrite Htick, Hoffn. unfold wrap_u8. rewrite Z.mod_small; lia. }
    destruct (timerIsr_above sn Hover') as [E ->]. rewrite E.
    destruct (fallback_fields sn) as (Ht & _ & _ & Hal & Hw').
    split; [reflexivity |]. split; [rewrite Ht; exact Hoffn |].
    split; [exact Hal |].
    + rewrite Hw', Hw. cbn [replicate concat].
      rewrite <- !app_assoc. f_equal.
      generalize ((fun p : Z => (p, LOW)) <$> pin_assignments). intros L.
      clear. induction n as [|n IH]; cbn.
      * rewrite !app_nil_r. reflexivity.
      * rewrite <- app_assoc. f_equal. exact IH.
Qed.

Lemma timerIsr_latched_witness :
  let s := set_clock_tick 95 initial_state in
  let s' := Nat.iter 3 timerIsr s in
  s' = Nat.iter 3 Legacy.timerIsr s
  /\ clock_tick s' = off s
  /\ all_low s'
  /\ writes s' = writes s
       ++ concat (replicate 3 ((fun p => (p, LOW)) <$> pin_assignments)).
Proof.
  apply (timerIsr_latched (set_clock_tick 95 initial_state) 2).
  - cbn. lia.
  - vm_compute. reflexivity.
Defined.

(** X12.  With [off] at 255, which sixteen 'f' commands reach from the
    default 95, the loss-of-synchronisation branch can never be taken: the
    8-bit tick cannot exceed 255, so every call counts on, wrapping from 255
    to 0. *)
Theorem timerIsr_off_255 (s : state) :
  off s = 255 ->
  clock_tick (timerIsr s) = wrap_u8 (clock_tick s + 1)
  /\ clock_tick (Legacy.timerIsr s) = wrap_u8 (clock_tick s + 1)
  /\ off (serialEvent (replicate 16 "f"%char) initial_state) = 255.
Proof.
  intros Hoff.
  assert (Hle : wrap_u8 (clock_tick s + 1) <= off s).
  { rewrite Hoff. unfold wrap_u8.
    pose proof (Z.mod_pos_bound (clock_tick s + 1) 256 ltac:(lia)). lia. }
  rewrite (timerIsr_below s Hle), (legacy_timerIsr_below s Hle), !emit_fields.
  repeat split.
Qed.

Lemma timerIsr_off_255_witness :
  let s := set_clock_tick 255 (set_off 255 initial_state) in
  clock_tick (timerIsr s) = wrap_u8 (clock_tick s + 1)
  /\ clock_tick (Legacy.timerIsr s) = wrap_u8 (clock_tick s + 1)
  /\ off (serialEvent (replicate 16 "f"%char) initial_state) = 255.
Proof.
  apply (timerIsr_off_255 (set_clock_tick 255 (set_off 255 initial_state))).
  reflexivity.
Defined.

Lemma fires_if (p : Z) (c : bool) (ws : list (Z * bool)) :
  fires p (if c then ws else []) = if c then fires p ws else 0%nat.
Proof. destruct c; reflexivity. Qed.

(** Among the pulses of one tick, a channel's output is raised once if its
    [lux] is the tick and not at all otherwise. *)
Lemma fires_pulses (l : list Z) (tick : Z) (k : nat) :
  (k < 8)%nat ->
  fires (pin_assignments !!! k)
    (flat_map
       (fun j => if l !!! j =? tick
                 then [(pin_assignments !!! j, HIGH); (pin_assignments !!! j, LOW)]
                 else [])
       (seq 0 8))
  = if l !!! k =? tick then 1%nat else 0%nat.
Proof.
  intros Hk.
  cbn [seq flat_map]. rewrite !fires_app, !fires_if.
  do 8 (destruct k as [|k];
        [vm_compute fires;
         repeat (match goal with
                 | |- context [if ?c then 0%nat else 0%nat] =>
                     replace (if c then 0%nat else 0%nat) with 0%nat
                       by (destruct c; reflexivity)
                 end);
         destruct (_ =? _); reflexivity |]).
  lia.
Qed.

Lemma legacy_run (n : nat) :
  forall s : state,
    clock_tick s = 0 -> 0 <= off s <= 254 ->
    let s' := Nat.iter n Legacy.timerIsr s in
    lux s' = lux s /\ off s' = off s
    /\ clock_tick s' = Z.min (Z.of_nat n) (off s)
    /\ exists new, writes s' = writes s ++ new
         /\ forall k, (k < 8)%nat ->
              fires (pin_assignments !!! k) new
              = if (1 <=? lux s !!! k) && (lux s !!! k <=? Z.min (Z.of_nat n) (off s))
                then 1%nat else 0%nat.
Proof.
  intros s Htick Hoff. cbv zeta.
  induction n as [|n IH].
  - change (Nat.iter 0 Legacy.timerIsr s) with s. rewrite Htick.
    split; [reflexivity |]. split; [reflexivity |]. split; [lia |].
    exists []. split; [rewrite app_nil_r; reflexivity |].
    intros k Hk. replace (Z.min (Z.of_nat 0) (off s)) with 0 by lia.
    destruct (Z.leb_spec 1 (lux s !!! k)), (Z.leb_spec (lux s !!! k) 0);
      try reflexivity; lia.
  - destruct IH as (Hlux & Hoffn & Hct & new & Hw & Hf).
    change (Nat.iter (S n) Legacy.timerIsr s)
      with (Legacy.timerIsr (Nat.iter n Legacy.timerIsr s)).
    set (sn := Nat.iter n Legacy.timerIsr s) in *.
    assert (Hwrap : wrap_u8 (clock_tick sn + 1) = Z.min (Z.of_nat n) (off s) + 1).
    { rewrite Hct. unfold wrap_u8. apply Z.mod_small. lia. }
    destruct (Z.lt_ge_cases (Z.of_nat n) (off s)) as [Hlt | Hge].
    + (* still counting *)
      rewrite legacy_timerIsr_below by (rewrite Hwrap, Hoffn; lia).
      rewrite emit_fields, Hwrap, Hlux.
      cbn [lux off clock_tick writes set_clock_tick].
      split; [exact Hlux |]. split; [exact Hoffn |]. split; [lia |].
      eexists. split; [rewrite Hw, <- app_assoc; reflexivity |].
      intros k Hk. rewrite fires_app, Hf, fires_pulses by exact Hk.
      replace (Z.min (Z.of_nat n) (off s)) with (Z.of_nat n) by lia.
      replace (Z.min (Z.of_nat (S n)) (off s)) with (Z.of_nat n + 1) by lia.
      destruct (Z.leb_spec 1 (lux s !!! k)),
               (Z.leb_spec (lux s !!! k) (Z.of_nat n)),
               (Z.leb_spec (lux s !!! k) (Z.of_nat n + 1)),
               (Z.eqb_spec (lux s !!! k) (Z.of_nat n + 1));
        cbn; try reflexivity; lia.
    + (* past [off]: the fallback *)
      destruct (timerIsr_above sn) as [E ->];
        [rewrite Hwrap, Hoffn; lia |].
      rewrite E.
      destruct (fallback_fields sn) as (Ht & Ho & Hl & _ & Hw').
      split; [rewrite Hl; exact Hlux |]. split; [rewrite Ho; exact Hoffn |].
      split; [rewrite Ht, Hoffn; lia |].
      eexists. split; [rewrite Hw', Hw, <- app_assoc; reflexivity |].
      intros k Hk. rewrite fires_app, Hf, fires_low by exact Hk.
      replace (Z.min (Z.of_nat (S n)) (off s)) with (Z.min (Z.of_nat n) (off s))
        by lia.
      lia.
Qed.

(** X13.  One half-cycle of the older program.  After a zero crossing and
    any number [n] of timer calls, the tick stands at [min n off], and each
    channel's output has been raised exactly once if its [lux] lies in
    [1 .. min n off] and not at all otherwise: a channel with [lux] 0, or
    with [lux] above [off], never fires. *)
Theorem legacy_half_cycle (s : state) (n : nat) :
  0 <= off s <= 254 ->
  let s' := Nat.iter n Legacy.timerIsr (Legacy.zero_cross_int s) in
  clock_tick s' = Z.min (Z.of_nat n) (off s)
  /\ exists new, writes s' = writes s ++ new
       /\ forall k, (k < 8)%nat ->
            fires (pin_assignments !!! k) new
            = if (1 <=? lux s !!! k) && (lux s !!! k <=? Z.min (Z.of_nat n) (off s))
              then 1%nat else 0%nat.
Proof.
  intros Hoff.
  destruct (legacy_run n (Legacy.zero_cross_int s)) as (_ & _ & Ht & Hnew);
    [reflexivity | exact Hoff |].
  split; [exact Ht | exact Hnew].
Qed.

Lemma legacy_half_cycle_witness :
  let s := set_off 190 (set_lux [90; 100; 120; 170; 0; 191; 150; 90] initial_state) in
  let s' := Nat.iter 200 Legacy.timerIsr (Legacy.zero_cross_int s) in
  clock_tick s' = Z.min (Z.of_nat 200) (off s)
  /\ exists new, writes s' = writes s ++ new
       /\ forall k, (k < 8)%nat ->
            fires (pin_assignments !!! k) new
            = if (1 <=? lux s !!! k) && (lux s !!! k <=? Z.min (Z.of_nat 200) (off s))
              then 1%nat else 0%nat.
Proof.
  apply (legacy_half_cycle
           (set_off 190 (set_lux [90; 100; 120; 170; 0; 191; 150; 90] initial_state))
           200).
  cbn. lia.
Defined.

(** X14.  At the compare match of the entry under the cursor (the counter
    equal to that entry, short of the top 64 counts of its range) a call
    that returns has raised that entry's output and moved the cursor on. *)
Theorem ISR_fires_at_match (s s' : state) (c : Z) :
  length (commands s) = 8%nat ->
  0 <= next_command s ->
  commands s !! Z.to_nat (next_command s) = Some c ->
  TCNT1 s = c -> 0 <= c < 65472 ->
  ISR_TIMER1_COMPA s = Done s' ->
  next_command s < next_command s'
  /\ (pin_of c, HIGH) ∈ drop (length (writes s)) (writes s').
Proof.
  intros Hlen Hnc Hc Ht Hr H.
  destruct (ISR_spec s s' Hlen H) as (n & c' & _ & Hn & Hl & Hd & Hc' & Hnd & ->).
  assert (Hdue : due (TCNT1 s) c).
  { unfold due. rewrite Ht, wrap_u16_small by lia. lia. }
  destruct n as [|n].
  - rewrite Z.add_0_r in Hc'. rewrite Hc in Hc'. injection Hc' as <-.
    contradiction.
  - rewrite emit_fields. cbn [next_command writes set_OCR1A set_next_command].
    split; [lia |].
    rewrite drop_app_length, (slice_cons _ n _ c Hnc Hc).
    apply elem_of_cons. right. apply elem_of_app. left.
    unfold raise. cbn [fmap list_fmap]. apply elem_of_cons. left. reflexivity.
Qed.

Lemma ISR_fires_at_match_witness :
  let s := set_TCNT1 7464 (@publish exact solo initial_state) in
  let s' := set_OCR1A 14105 (set_next_command 1
              (emit [(led, HIGH); (9, HIGH); (9, LOW)] s)) in
  next_command s < next_command s'
  /\ (pin_of 7464, HIGH) ∈ drop (length (writes s)) (writes s').
Proof.
  apply (ISR_fires_at_match
           (set_TCNT1 7464 (@publish exact solo initial_state)) _ 7464).
  - reflexivity.
  - cbn. lia.
  - vm_compute. reflexivity.
  - reflexivity.
  - lia.
  - vm_compute. reflexivity.
Defined.

(** ** Edges in quick succession *)

Lemma zero_cross_rejects (s : state) :
  TCNT1 s < 1000 -> zero_cross_int s = set_previous_zero_cross (TCNT1 s) s.
Proof.
  intros H. unfold zero_cross_int. cbn [TCNT1 set_previous_zero_cross].
  apply Z.ltb_lt in H. rewrite H. reflexivity.
Qed.

Lemma zero_cross_accepts (s : state) :
  1000 <= TCNT1 s ->
  zero_cross_int s
  = set_TCNT1 0 (set_OCR1A (commands s !!! 0%nat)
      (digitalWrite led LOW (set_toggly_State false (set_next_command 0
         (set_clock_tick 0 (set_previous_zero_cross (TCNT1 s) s)))))).
Proof.
  intros H. unfold zero_cross_int. cbn [TCNT1 set_previous_zero_cross].
  apply Z.ltb_ge in H. rewrite H. reflexivity.
Qed.

(** X15.  An edge that follows an accepted edge before the counter has
    reached 1000 again is rejected; all it does is overwrite the counter
    value captured at the accepted edge with the small count found now. *)
Theorem zero_cross_twice (s : state) (elapsed : Z) :
  1000 <= TCNT1 s -> 0 <= elapsed < 1000 ->
  let s1 := zero_cross_int s in
  let s2 := zero_cross_int (set_TCNT1 elapsed s1) in
  s2 = set_previous_zero_cross elapsed (set_TCNT1 elapsed s1)
  /\ previous_zero_cross s1 = TCNT1 s
  /\ previous_zero_cross s2 = elapsed
  /\ next_command s2 = 0 /\ OCR1A s2 = commands s !!! 0%nat.
Proof.
  intros Hacc Hel. cbv zeta.
  rewrite (zero_cross_rejects (set_TCNT1 elapsed (zero_cross_int s)))
    by (cbn [TCNT1 set_TCNT1]; lia).
  rewrite (zero_cross_accepts s Hacc).
  repeat split.
Qed.

Lemma zero_cross_twice_witness :
  let s := set_TCNT1 20000 (@publish exact ramp initial_state) in
  let s1 := zero_cross_int s in
  let s2 := zero_cross_int (set_TCNT1 12 s1) in
  s2 = set_previous_zero_cross 12 (set_TCNT1 12 s1)
  /\ previous_zero_cross s1 = TCNT1 s
  /\ previous_zero_cross s2 = 12
  /\ next_command s2 = 0 /\ OCR1A s2 = commands s !!! 0%nat.
Proof.
  apply (zero_cross_twice (set_TCNT1 20000 (@publish exact ramp initial_state)) 12).
  - cbn. lia.
  - lia.
Defined.

(** ** More on the serial commands *)

Lemma wrap_u8_add (x d : Z) : wrap_u8 (wrap_u8 x + d) = wrap_u8 (x + d).
Proof. unfold wrap_u8. apply Zplus_mod_idemp_l. Qed.

Lemma wrap_u16_add (x d : Z) : wrap_u16 (wrap_u16 x + d) = wrap_u16 (x + d).
Proof. unfold wrap_u16. apply Zplus_mod_idemp_l. Qed.

Lemma wrap_u8_byte (x : Z) : byte (wrap_u8 x).
Proof.
  unfold byte, wrap_u8. pose proof (Z.mod_pos_bound x 256 ltac:(lia)). lia.
Qed.

Lemma serial_char_cases (c : ascii) (s : state) :
  serial_char c s = set_delay_time (wrap_u16 (delay_time s - 10)) s
  \/ serial_char c s = set_delay_time (wrap_u16 (delay_time s + 10)) s
  \/ serial_char c s = set_low (wrap_u8 (low s - 10)) s
  \/ serial_char c s = set_low (wrap_u8 (low s + 10)) s
  \/ serial_char c s = set_off (wrap_u8 (off s - 10)) s
  \/ serial_char c s = set_off (wrap_u8 (off s + 10)) s
  \/ serial_char c s = s.
Proof.
  unfold serial_char.
  repeat (match goal with |- context [if ?b then _ else _] => destruct b end);
    tauto.
Qed.

(** X16.  Whatever arrives on the serial line, only [delay_time], [low] and
    [off] can change, and they stay within the range of their C types; the
    queue, the ticks, [high], the cursor, the counter, the comparator and
    the pins are never touched. *)
Theorem serialEvent_touches (input : list ascii) (s : state) :
  byte (low s) -> byte (off s) -> 0 <= delay_time s < 65536 ->
  let s' := serialEvent input s in
  s' = set_off (off s') (set_low (low s') (set_delay_time (delay_time s') s))
  /\ byte (low s') /\ byte (off s') /\ 0 <= delay_time s' < 65536.
Proof.
  revert s. induction input as [|c input IH]; intros s Hl Ho Hd; cbv zeta.
  - cbn. split; [destruct s; reflexivity |]. split; [exact Hl |].
    split; [exact Ho | exact Hd].
  - change (serialEvent (c :: input) s) with (serialEvent input (serial_char c s)).
    assert (Hc : serial_char c s
                 = set_off (off (serial_char c s))
                     (set_low (low (serial_char c s))
                        (set_delay_time (delay_time (serial_char c s)) s))
                 /\ byte (low (serial_char c s)) /\ byte (off (serial_char c s))
                 /\ 0 <= delay_time (serial_char c s) < 65536).
    { pose proof (Z.mod_pos_bound (delay_time s - 10) 65536 ltac:(lia)).
      pose proof (Z.mod_pos_bound (delay_time s + 10) 65536 ltac:(lia)).
      destruct (serial_char_cases c s) as [E | [E | [E | [E | [E | [E | E]]]]]];
        rewrite E; cbn [low off delay_time set_delay_time set_low set_off];
        (split; [destruct s; reflexivity |]);
        repeat split; try apply wrap_u8_byte; unfold wrap_u16, byte in *; lia. }
    destruct Hc as (Ec & Hl' & Ho' & Hd').
    destruct (IH (serial_char c s) Hl' Ho' Hd') as (E & Hl2 & Ho2 & Hd2).
    split; [| split; [exact Hl2 | split; [exact Ho2 | exact Hd2]]].
    generalize dependent (off (serialEvent input (serial_char c s))).
    generalize dependent (low (serialEvent input (serial_char c s))).
    generalize dependent (delay_time (serialEvent input (serial_char c s))).
    intros d _ b _ a -> _. rewrite Ec. reflexivity.
Qed.

Lemma serialEvent_touches_witness :
  let s' := serialEvent ["h"; "x"; "o"; "u"; "s"]%char initial_state in
  s' = set_off (off s') (set_low (low s')
         (set_delay_time (delay_time s') initial_state))
  /\ byte (low s') /\ byte (off s') /\ 0 <= delay_time s' < 65536.
Proof.
  apply (serialEvent_touches ["h"; "x"; "o"; "u"; "s"]%char initial_state);
    unfold byte; cbn; lia.
Defined.

(** X17.  The two commands of a pair undo each other, in either order,
    also across the wrap-around of the variable. *)
Theorem serial_pairs_cancel (s : state) :
  byte (low s) -> byte (off s) -> 0 <= delay_time s < 65536 ->
  serialEvent ["l"; "h"]%char s = s /\ serialEvent ["h"; "l"]%char s = s
  /\ serialEvent ["o"; "f"]%char s = s /\ serialEvent ["f"; "o"]%char s = s
  /\ serialEvent ["u"; "d"]%char s = s /\ serialEvent ["d"; "u"]%char s = s.
Proof.
  unfold byte. intros Hl Ho Hd.
  assert (H8 : forall x d, 0 <= x <= 255 -> wrap_u8 (wrap_u8 (x + d) - d) = x).
  { intros x d Hx. unfold Z.sub. rewrite wrap_u8_add.
    replace (x + d + - d) with x by lia. apply Z.mod_small. lia. }
  assert (H16 : forall x d, 0 <= x < 65536 -> wrap_u16 (wrap_u16 (x + d) - d) = x).
  { intros x d Hx. unfold Z.sub. rewrite wrap_u16_add.
    replace (x + d + - d) with x by lia. apply Z.mod_small. lia. }
  pose proof (H8 (low s) 10 Hl) as L1. pose proof (H8 (low s) (-10) Hl) as L2.
  pose proof (H8 (off s) 10 Ho) as O1. pose proof (H8 (off s) (-10) Ho) as O2.
  pose proof (H16 (delay_time s) 10 Hd) as D1.
  pose proof (H16 (delay_time s) (-10) Hd) as D2.
  change (low s + -10) with (low s - 10) in L2.
  change (off s + -10) with (off s - 10) in O2.
  change (delay_time s + -10) with (delay_time s - 10) in D2.
  replace (wrap_u8 (low s - 10) - -10) with (wrap_u8 (low s - 10) + 10) in L2 by lia.
  replace (wrap_u8 (off s - 10) - -10) with (wrap_u8 (off s - 10) + 10) in O2 by lia.
  replace (wrap_u16 (delay_time s - 10) - -10)
    with (wrap_u16 (delay_time s - 10) + 10) in D2 by lia.
  unfold serialEvent, serial_char. cbn.
  rewrite L1, L2, O1, O2, D1, D2.
  destruct s; repeat split.
Qed.

Lemma serial_pairs_cancel_witness :
  let s := set_low 5 initial_state in
  serialEvent ["l"; "h"]%char s = s /\ serialEvent ["h"; "l"]%char s = s
  /\ serialEvent ["o"; "f"]%char s = s /\ serialEvent ["f"; "o"]%char s = s
  /\ serialEvent ["u"; "d"]%char s = s /\ serialEvent ["d"; "u"]%char s = s.
Proof.
  apply (serial_pairs_cancel (set_low 5 initial_state)); unfold byte; cbn; lia.
Defined.

(** X18.  Characters other than the six commands, the report command 's'
    among them, leave the state as it is. *)
Theorem serial_ignores_others (input : list ascii) (s : state) :
  Forall (fun c => c ∉ ["u"; "d"; "l"; "h"; "o"; "f"]%char) input ->
  serialEvent input s = s.
Proof.
  revert s. induction input as [|c input IH]; intros s H; [reflexivity |].
  apply Forall_cons in H as [Hc H].
  change (serialEvent (c :: input) s) with (serialEvent input (serial_char c s)).
  assert (E : serial_char c s = s).
  { unfold serial_char.
    repeat (match goal with
            | |- context [Ascii.eqb c ?k] =>
                destruct (Ascii.eqb_spec c k) as [-> | _];
                [exfalso; apply Hc; set_solver |]
            end).
    reflexivity. }
  rewrite E. apply IH. exact H.
Qed.

Lemma serial_ignores_others_witness :
  serialEvent ["s"; "x"; "H"; " "]%char initial_state = initial_state.
Proof.
  apply serial_ignores_others.
  repeat constructor; intros H;
    repeat (apply elem_of_cons in H as [H | H]; [discriminate H |]);
    inversion H.
Defined.

Lemma serial_repeat_iter {A : Type} (c : ascii) (get : state -> A) (f : A -> A) :
  (forall s, get (serial_char c s) = f (get s)) ->
  forall (n : nat) (s : state),
    get (serialEvent (replicate n c) s) = Nat.iter n f (get s).
Proof.
  intros Hstep n. induction n as [|n IH]; intros s; [reflexivity |].
  change (serialEvent (replicate (S n) c) s)
    with (serialEvent (replicate n c) (serial_char c s)).
  rewrite IH, Hstep. symmetry. apply Nat.iter_succ_r.
Qed.

Lemma iter_wrap (m d x : Z) (n : nat) :
  0 < m -> 0 <= x < m ->
  Nat.iter n (fun y => (y + d) mod m) x = (x + d * Z.of_nat n) mod m.
Proof.
  intros Hm Hx. induction n as [|n IH].
  - cbn. rewrite Z.mul_0_r, Z.add_0_r, Z.mod_small; lia.
  - rewrite Nat.iter_succ, IH, Zplus_mod_idemp_l. f_equal. lia.
Qed.

(** X19.  Repeating a command accumulates modulo the width of the
    variable: [n] times 'h' adds [10 n] to [low] modulo 256, [n] times 'l'
    subtracts it, and likewise 'f' and 'o' on [off] and 'd' and 'u' on
    [delay_time] modulo 65536. *)
Theorem serial_repeat (n : nat) (s : state) :
  byte (low s) -> byte (off s) -> 0 <= delay_time s < 65536 ->
  low (serialEvent (replicate n "h"%char) s) = wrap_u8 (low s + 10 * Z.of_nat n)
  /\ low (serialEvent (replicate n "l"%char) s) = wrap_u8 (low s - 10 * Z.of_nat n)
  /\ off (serialEvent (replicate n "f"%char) s) = wrap_u8 (off s + 10 * Z.of_nat n)
  /\ off (serialEvent (replicate n "o"%char) s) = wrap_u8 (off s - 10 * Z.of_nat n)
  /\ delay_time (serialEvent (replicate n "d"%char) s)
     = wrap_u16 (delay_time s + 10 * Z.of_nat n)
  /\ delay_time (serialEvent (replicate n "u"%char) s)
     = wrap_u16 (delay_time s - 10 * Z.of_nat n).
Proof.
  unfold byte. intros Hl Ho Hd.
  repeat split.
  - rewrite (serial_repeat_iter "h" low (fun y => (y + 10) mod 256))
      by reflexivity.
    apply iter_wrap; lia.
  - rewrite (serial_repeat_iter "l" low (fun y => (y + -10) mod 256))
      by reflexivity.
    rewrite iter_wrap by lia. unfold wrap_u8. f_equal. lia.
  - rewrite (serial_repeat_iter "f" off (fun y => (y + 10) mod 256))
      by reflexivity.
    apply iter_wrap; lia.
  - rewrite (serial_repeat_iter "o" off (fun y => (y + -10) mod 256))
      by reflexivity.
    rewrite iter_wrap by lia. unfold wrap_u8. f_equal. lia.
  - rewrite (serial_repeat_iter "d" delay_time (fun y => (y + 10) mod 65536))
      by reflexivity.
    apply iter_wrap; lia.
  - rewrite (serial_repeat_iter "u" delay_time (fun y => (y + -10) mod 65536))
      by reflexivity.
    rewrite iter_wrap by lia. unfold wrap_u16. f_equal. lia.
Qed.

Lemma serial_repeat_witness :
  low (serialEvent (replicate 20 "h"%char) initial_state) = wrap_u8 (85 + 10 * 20)
  /\ low (serialEvent (replicate 20 "l"%char) initial_state) = wrap_u8 (85 - 10 * 20)
  /\ off (serialEvent (replicate 20 "f"%char) initial_state) = wrap_u8 (95 + 10 * 20)
  /\ off (serialEvent (replicate 20 "o"%char) initial_state) = wrap_u8 (95 - 10 * 20)
  /\ delay_time (serialEvent (replicate 20 "d"%char) initial_state)
     = wrap_u16 (100 + 10 * 20)
  /\ delay_time (serialEvent (replicate 20 "u"%char) initial_state)
     = wrap_u16 (100 - 10 * 20).
Proof.
  apply (serial_repeat 20 initial_state); unfold byte; cbn; lia.
Defined.

(** ** More on the builder *)

(** X20.  The hand-written selection sort is a sort: on any eight values it
    returns an ascending permutation of them, leaves an ascending array as
    it is, and sorting twice changes nothing more. *)
Theorem sort_newcommands_correct (nc : list Z) :
  length nc = 8%nat ->
  StronglySorted Z.le (sort_newcommands nc)
  /\ sort_newcommands nc ≡ₚ nc
  /\ (StronglySorted Z.le nc -> sort_newcommands nc = nc)
  /\ sort_newcommands (sort_newcommands nc) = sort_newcommands nc.
Proof.
  intros Hlen.
  assert (Hs : forall l, length l = 8%nat -> StronglySorted Z.le (sort_newcommands l)).
  { intros l Hl. apply sorted_StronglySorted. intros a b va vb Hab Ha Hb.
    apply (sort_newcommands_sorted l a b); assumption. }
  assert (Hid : forall l, length l = 8%nat -> StronglySorted Z.le l ->
                          sort_newcommands l = l).
  { intros l Hl Hsl. apply (StronglySorted_unique Z.le);
      [apply Hs; exact Hl | exact Hsl | apply sort_newcommands_perm; exact Hl]. }
  split; [apply Hs; exact Hlen |].
  split; [apply sort_newcommands_perm; exact Hlen |].
  split; [apply Hid; exact Hlen |].
  apply Hid; [apply sort_newcommands_length; exact Hlen | apply Hs; exact Hlen].
Qed.

Lemma sort_newcommands_correct_witness :
  let nc := [14105; -8; 7464; 32767; 0; 7464; -32768; 9] in
  StronglySorted Z.le (sort_newcommands nc)
  /\ sort_newcommands nc ≡ₚ nc
  /\ (StronglySorted Z.le nc -> sort_newcommands nc = nc)
  /\ sort_newcommands (sort_newcommands nc) = sort_newcommands nc.
Proof.
  apply (sort_newcommands_correct [14105; -8; 7464; 32767; 0; 7464; -32768; 9]).
  reflexivity.
Defined.

Lemma publish_closed {R : Rounding} (bright : nat -> Q) (s : state) :
  length (lux s) = 8%nat -> length (commands s) = 8%nat ->
  publish bright s
  = set_commands
      (wrap_u16 <$> sort_newcommands
         ((fun i => pack (lux_of (high s) (low s) (bright i)) i) <$> seq 0 8))
      (set_lux ((fun i => lux_of (high s) (low s) (bright i)) <$> seq 0 8) s).
Proof.
  intros Hl Hc.
  pose proof (publish_commands bright s Hc) as E1.
  pose proof (publish_lux bright s Hl) as E2.
  unfold publish in *. unfold set_commands, set_lux in *. cbn [commands lux] in *.
  rewrite E1. cbn [lux commands clock_tick delay_time low high off next_command
                   toggly_State previous_zero_cross t TCNT1 OCR1A pins writes].
  rewrite E2. reflexivity.
Qed.

(** X21.  A pass overwrites [lux] and the queue completely: what they held
    before does not matter, so publishing the same brightness again, with
    the configuration unchanged, gives the same state. *)
Theorem publish_overwrites {R : Rounding} (bright : nat -> Q) (s : state)
    (l c : list Z) :
  length (lux s) = 8%nat -> length (commands s) = 8%nat ->
  length l = 8%nat -> length c = 8%nat ->
  publish bright (set_commands c (set_lux l s)) = publish bright s
  /\ publish bright (publish bright s) = publish bright s.
Proof.
  intros Hl Hc Hl' Hc'.
  rewrite (publish_closed bright s Hl Hc).
  split.
  - rewrite publish_closed by assumption. reflexivity.
  - rewrite publish_closed.
    + reflexivity.
    + cbn [lux set_commands set_lux]. rewrite length_fmap, length_seq. reflexivity.
    + cbn [commands set_commands]. rewrite length_fmap.
      apply sort_newcommands_length. rewrite length_fmap, length_seq. reflexivity.
Qed.

Lemma publish_overwrites_witness :
  publish ramp (set_commands (replicate 8 7) (set_lux (replicate 8 3) initial_state))
  = @publish exact ramp initial_state
  /\ publish ramp (@publish exact ramp initial_state) = @publish exact ramp initial_state.
Proof.
  apply (@publish_overwrites exact ramp initial_state); reflexivity.
Defined.

Section Inverted.
Context {R : Rounding}.

Lemma delay_value_full (high low : Z) :
  byte high -> byte low -> (delay_value high low 1 == inject_Z high)%Q.
Proof.
  unfold byte. intros Hh Hl. unfold delay_value.
  assert (E1 : (of_int 1 - 1 == inject_Z 0)%Q).
  { rewrite (of_int_exact 1) by lia. change (inject_Z 1) with 1%Q.
    change (inject_Z 0) with 0%Q. ring. }
  rewrite E1, (rnd_int 0) by lia.
  assert (E2 : (of_int (low - high) * inject_Z 0 == inject_Z 0)%Q).
  { change (inject_Z 0) with 0%Q. ring. }
  rewrite E2, (rnd_int 0) by lia.
  rewrite (of_int_exact high) by lia.
  assert (E3 : (inject_Z high + inject_Z 0 == inject_Z high)%Q).
  { change (inject_Z 0) with 0%Q. ring. }
  rewrite E3. apply rnd_int. lia.
Qed.

Lemma lux_of_full (high low : Z) :
  0 <= high <= 197 -> byte low -> lux_of high low 1 = high * 166.
Proof.
  intros Hh Hl. unfold lux_of, float_to_int, fire_value.
  assert (E : (rnd (delay_value high low 1 * of_int 166) == inject_Z (high * 166))%Q).
  { rewrite delay_value_full by (unfold byte; lia || assumption).
    rewrite (of_int_exact 166), <- inject_Z_mult by lia.
    apply rnd_int. lia. }
  rewrite (Qtrunc_comp _ _ E), Qtrunc_Z.
  apply wrap_i16_small. unfold in_i16. lia.
Qed.

(** With [low <= high] a brighter channel gets a delay that is no smaller. *)
Lemma fire_value_monotone_inverted (high low : Z) (x y : Q) :
  byte high -> byte low -> low <= high ->
  (x <= y)%Q -> (fire_value high low x <= fire_value high low y)%Q.
Proof.
  unfold byte. intros Hh Hl Hhl Hxy. unfold fire_value, delay_value.
  apply rnd_mono.
  rewrite (of_int_exact 166) by lia. change (inject_Z 166) with 166%Q.
  assert (H3 : (rnd (of_int high + rnd (of_int (low - high) * rnd (of_int 1 - x)))
                <= rnd (of_int high + rnd (of_int (low - high) * rnd (of_int 1 - y))))%Q).
  { apply rnd_mono.
    assert (H2 : (rnd (of_int (low - high) * rnd (of_int 1 - x))
                  <= rnd (of_int (low - high) * rnd (of_int 1 - y)))%Q).
    { apply rnd_mono.
      assert (H1 : (rnd (of_int 1 - y) <= rnd (of_int 1 - x))%Q)
        by (apply rnd_mono; lra).
      rewrite (of_int_exact (low - high)) by lia.
      assert (Hd' : (inject_Z (low - high) <= 0)%Q)
        by (change 0%Q with (inject_Z 0); rewrite <- Zle_Qle; lia).
      nra. }
    lra. }
  lra.
Qed.
End Inverted.

(** X22.  The ends of the tick range, under any rounding: brightness 1
    gives [high] times 166 exactly and brightness 0 gives [low] times 166,
    every brightness in between gives a tick between the two, whichever of
    [low] and [high] is the larger; and when [low] has been brought below
    [high] the direction reverses: a brighter channel then fires later. *)
Theorem lux_of_ends {R : Rounding} (high low : Z) (x y : Q) :
  0 <= high <= 197 -> 0 <= low <= 197 ->
  (0 <= x)%Q -> (x <= y)%Q -> (y <= 1)%Q ->
  lux_of high low 1 = high * 166
  /\ lux_of high low 0 = low * 166
  /\ Z.min high low * 166 <= lux_of high low x <= Z.max high low * 166
  /\ (low <= high -> lux_of high low x <= lux_of high low y).
Proof.
  intros Hh Hl Hx Hxy Hy.
  split; [apply lux_of_full; unfold byte; lia |].
  split; [apply lux_of_dark; unfold byte; lia |].
  destruct (lux_of_between high low x) as [Ex Bx]; [lia | lia | lra |].
  destruct (lux_of_between high low y) as [Ey _]; [lia | lia | lra |].
  split; [exact Bx |].
  intros Hinv. rewrite Ex, Ey.
  apply Qtrunc_mono, fire_value_monotone_inverted; unfold byte; try lia.
  exact Hxy.
Qed.

Lemma lux_of_ends_witness :
  @lux_of exact 45 35 1 = 45 * 166
  /\ @lux_of exact 45 35 0 = 35 * 166
  /\ Z.min 45 35 * 166 <= @lux_of exact 45 35 (1 # 4) <= Z.max 45 35 * 166
  /\ (35 <= 45 -> @lux_of exact 45 35 (1 # 4) <= @lux_of exact 45 35 (3 # 4)).
Proof.
  apply (@lux_of_ends exact 45 35 (1 # 4) (3 # 4)); try lia;
    unfold Qle; simpl; lia.
Defined.

(** ** A whole pass of [loop] *)

Lemma serial_char_fields (c : ascii) (s : state) :
  serial_char c s
  = set_off (off (serial_char c s))
      (set_low (low (serial_char c s))
         (set_delay_time (delay_time (serial_char c s)) s)).
Proof.
  destruct (serial_char_cases c s) as [E | [E | [E | [E | [E | [E | E]]]]]];
    rewrite E; destruct s; reflexivity.
Qed.

Lemma serialEvent_fields (input : list ascii) :
  forall s : state,
    serialEvent input s
    = set_off (off (serialEvent input s))
        (set_low (low (serialEvent input s))
           (set_delay_time (delay_time (serialEvent input s)) s)).
Proof.
  induction input as [|c input IH]; intros s; [destruct s; reflexivity |].
  change (serialEvent (c :: input) s) with (serialEvent input (serial_char c s)).
  pose proof (IH (serial_char c s)) as E.
  generalize dependent (off (serialEvent input (serial_char c s))).
  generalize dependent (low (serialEvent input (serial_char c s))).
  generalize dependent (delay_time (serialEvent input (serial_char c s))).
  intros d b a ->. rewrite (serial_char_fields c s). reflexivity.
Qed.

(** X23.  One pass of [loop] advances [t] around 0..1023, builds the queue
    from the configuration as the first batch of serial commands left it
    (the second batch comes too late for this pass), and touches neither the
    cursor, the counter, the comparator nor the pins: the comparator keeps
    the value armed from the previous queue. *)
Theorem loop_pass {R : Rounding} (input1 input2 : list ascii)
    (bright : nat -> Q) (s : state) :
  0 <= t s < 1024 ->
  let s' := loop input1 input2 bright s in
  t s' = (t s + 1) mod 1024
  /\ commands s' = commands (publish bright (serialEvent input1 s))
  /\ lux s' = lux (publish bright (serialEvent input1 s))
  /\ next_command s' = next_command s /\ TCNT1 s' = TCNT1 s
  /\ OCR1A s' = OCR1A s /\ pins s' = pins s /\ writes s' = writes s
  /\ high s' = high s.
Proof.
  intros Ht. cbv zeta. unfold loop.
  rewrite (serialEvent_fields input2).
  cbn [t commands lux next_command TCNT1 OCR1A pins writes high
       set_off set_low set_delay_time].
  unfold publish.
  cbn [t commands lux next_command TCNT1 OCR1A pins writes high low
       set_commands set_lux set_t].
  rewrite (serialEvent_fields input1 s).
  cbn [t commands lux next_command TCNT1 OCR1A pins writes high low
       set_off set_low set_delay_time].
  repeat split.
  rewrite wrap_i16_small by (unfold in_i16; lia).
  destruct (Z.geb_spec (t s + 1) 1024) as [Hge | Hlt].
  - replace (t s + 1) with 1024 by lia. reflexivity.
  - symmetry. apply Z.mod_small. lia.
Qed.

Lemma loop_pass_witness :
  let s := set_t 1023 initial_state in
  let s' := @loop exact ["h"]%char ["l"]%char ramp s in
  t s' = (t s + 1) mod 1024
  /\ commands s' = commands (@publish exact ramp (serialEvent ["h"]%char s))
  /\ lux s' = lux (@publish exact ramp (serialEvent ["h"]%char s))
  /\ next_command s' = next_command s /\ TCNT1 s' = TCNT1 s
  /\ OCR1A s' = OCR1A s /\ pins s' = pins s /\ writes s' = writes s
  /\ high s' = high s.
Proof.
  apply (@loop_pass exact ["h"]%char ["l"]%char ramp (set_t 1023 initial_state)).
  cbn. lia.
Defined.

(** ** The older program, end to end *)

Lemma serialEvent_writes (input : list ascii) (s : state) :
  writes (serialEvent input s) = writes s.
Proof. rewrite serialEvent_fields. reflexivity. Qed.

Lemma serialEvent_lux (input : list ascii) (s : state) :
  lux (serialEvent input s) = lux s.
Proof. rewrite serialEvent_fields. reflexivity. Qed.

Lemma legacy_publish_lux {R : Rounding} (bright : nat -> Q) (s : state) :
  length (lux s) = 8%nat ->
  Legacy.publish bright s
  = set_lux ((fun i => Legacy.lux_of (high s) (low s) (bright i)) <$> seq 0 8) s.
Proof.
  intros Hlen. unfold Legacy.publish. f_equal.
  generalize (lux s) Hlen. intros l Hl.
  do 8 (destruct l as [|? l]; [discriminate Hl |]).
  destruct l; [| discriminate Hl].
  reflexivity.
Qed.

(** X24.  In the older program, with [low] and [high] both within
    [1 .. off] (the defaults are 170, 90 and 190), a pass of [loop]
    followed by a zero crossing and at least [off] timer calls raises each
    of the eight outputs exactly once, whatever the brightness in [0,1]: no
    brightness turns a channel off. *)
Theorem legacy_every_channel_fires {R : Rounding} (input1 input2 : list ascii)
    (bright : nat -> Q) (s : state) (n : nat) :
  let s1 := Legacy.loop input1 input2 bright s in
  length (lux s) = 8%nat ->
  1 <= high s1 <= off s1 -> 1 <= low (serialEvent input1 s) <= off s1 ->
  off s1 <= 254 -> off s1 <= Z.of_nat n ->
  (forall i, (i < 8)%nat -> (0 <= bright i <= 1)%Q) ->
  let s' := Nat.iter n Legacy.timerIsr (Legacy.zero_cross_int s1) in
  exists new, writes s' = writes s ++ new
    /\ forall k, (k < 8)%nat -> fires (pin_assignments !!! k) new = 1%nat.
Proof.
  intros s1 Hlen Hh Hl Hoff Hn Hb s'.
  assert (Hs1 : lux s1 = (fun i => Legacy.lux_of (high s1)
                                     (low (serialEvent input1 s)) (bright i))
                         <$> seq 0 8
                /\ writes s1 = writes s /\ high s1 = high (serialEvent input1 s)).
  { unfold s1, Legacy.loop.
    rewrite (serialEvent_fields input2).
    cbn [lux writes high set_off set_low set_delay_time].
    rewrite legacy_publish_lux
      by (cbn [lux set_t]; rewrite serialEvent_lux; exact Hlen).
    cbn [lux writes high low set_lux set_t].
    rewrite serialEvent_writes. repeat split. }
  destruct Hs1 as (Hlux & Hw & Hhigh).
  destruct (legacy_run n (Legacy.zero_cross_int s1)) as (_ & _ & _ & new & Hnew & Hf);
    [reflexivity | cbn [off Legacy.zero_cross_int set_clock_tick]; lia |].
  fold s' in Hnew.
  cbn [writes lux off Legacy.zero_cross_int set_clock_tick] in Hnew, Hf.
  exists new. split; [rewrite Hnew, Hw; reflexivity |].
  intros k Hk. rewrite (Hf k Hk), Hlux.
  rewrite (list_lookup_total_correct _ _
             (Legacy.lux_of (high s1) (low (serialEvent input1 s)) (bright k)))
    by (rewrite list_lookup_fmap, lookup_seq_lt by lia; reflexivity).
  destruct (legacy_lux_of_between (high s1) (low (serialEvent input1 s)) (bright k))
    as [_ B]; [unfold byte; lia | unfold byte; lia | apply Hb; exact Hk |].
  replace (Z.min (Z.of_nat n) (off s1)) with (off s1) by lia.
  destruct (Z.leb_spec 1 (Legacy.lux_of (high s1) (low (serialEvent input1 s)) (bright k))),
           (Z.leb_spec (Legacy.lux_of (high s1) (low (serialEvent input1 s)) (bright k))
              (off s1));
    try reflexivity; lia.
Qed.

Lemma legacy_every_channel_fires_witness :
  let s := Legacy.initial_state in
  let s1 := @Legacy.loop exact [] [] ramp s in
  let s' := Nat.iter 250 Legacy.timerIsr (Legacy.zero_cross_int s1) in
  exists new, writes s' = writes s ++ new
    /\ forall k, (k < 8)%nat -> fires (pin_assignments !!! k) new = 1%nat.
Proof.
  apply (@legacy_every_channel_fires exact [] [] ramp Legacy.initial_state 250).
  - reflexivity.
  - change (1 <= 90 <= 190). lia.
  - change (1 <= 170 <= 190). lia.
  - change (190 <= 254). lia.
  - change (190 <= 250). lia.
  - intros i Hi.
    do 8 (destruct i as [|i]; [split; vm_compute; discriminate |]). lia.
Defined.

(** ** Outputs at rest *)

Lemma pin_lookup (k : nat) : (k < 8)%nat -> pin_assignments !!! k ∈ pin_assignments.
Proof.
  intros Hk. apply list_elem_of_lookup. exists k.
  apply list_lookup_lookup_total_lt. cbn. lia.
Qed.

(** A run made of pieces that each leave the outputs low leaves them low. *)
Lemma replay_pieces (pieces : list (list (Z * bool))) :
  (forall ws m, ws ∈ pieces ->
     (forall p, p ∈ pin_assignments -> m !! p = Some LOW) ->
     forall p, p ∈ pin_assignments -> replay ws m !! p = Some LOW) ->
  forall m, (forall p, p ∈ pin_assignments -> m !! p = Some LOW) ->
    forall p, p ∈ pin_assignments -> replay (concat pieces) m !! p = Some LOW.
Proof.
  induction pieces as [|ws pieces IH]; intros Hpc m Hm p Hp; [apply Hm; exact Hp |].
  cbn [concat]. rewrite replay_app.
  apply IH; [| | exact Hp].
  - intros ws' m' Hin. apply Hpc. apply elem_of_cons. right. exact Hin.
  - apply Hpc; [apply elem_of_cons; left; reflexivity | exact Hm].
Qed.

Lemma pulse_piece (q : Z) (m : gmap Z bool) :
  (forall p, p ∈ pin_assignments -> m !! p = Some LOW) ->
  forall p, p ∈ pin_assignments -> replay [(q, HIGH); (q, LOW)] m !! p = Some LOW.
Proof.
  intros Hm p Hp. cbn.
  destruct (decide (q = p)) as [-> | Hne].
  - apply lookup_insert_eq.
  - rewrite !lookup_insert_ne by exact Hne. apply Hm. exact Hp.
Qed.

Lemma flat_map_concat {A B : Type} (f : A -> list B) (l : list A) :
  flat_map f l = concat (f <$> l).
Proof. induction l as [|a l IH]; [reflexivity |]. cbn. rewrite IH. reflexivity. Qed.

(** X25.  The fixed-period handlers and the zero-cross handlers leave every
    triac output low if they found them low, in either branch, and after a
    timer call the tick is never above [off]. *)
Theorem timer_handlers_rest (s : state) :
  byte (clock_tick s) -> byte (off s) -> all_low s ->
  all_low (timerIsr s) /\ all_low (Legacy.timerIsr s)
  /\ all_low (zero_cross_int s) /\ all_low (Legacy.zero_cross_int s)
  /\ 0 <= clock_tick (timerIsr s) <= off s
  /\ 0 <= clock_tick (Legacy.timerIsr s) <= off s.
Proof.
  unfold byte. intros Ht Ho Hlow.
  assert (Hzc : all_low (zero_cross_int s)).
  { intros p Hp. unfold zero_cross_int.
    cbn [TCNT1 set_previous_zero_cross].
    destruct (TCNT1 s <? 1000); cbn; [apply Hlow; exact Hp |].
    rewrite lookup_insert_ne by (intros <-; exact (led_not_channel Hp)).
    apply Hlow. exact Hp. }
  assert (Hlzc : all_low (Legacy.zero_cross_int s)) by exact Hlow.
  pose proof (Z.mod_pos_bound (clock_tick s + 1) 256 ltac:(lia)) as Hw.
  fold (wrap_u8 (clock_tick s + 1)) in Hw.
  destruct (Z.le_gt_cases (wrap_u8 (clock_tick s + 1)) (off s)) as [Hle | Hgt].
  - rewrite (timerIsr_below s Hle), (legacy_timerIsr_below s Hle), !emit_fields.
    cbn [clock_tick set_clock_tick].
    repeat split; try lia; try assumption.
    + intros p Hp. cbn [pins set_clock_tick].
      set (chans := List.filter _ _).
      replace ((fun k => (pin_assignments !!! k, HIGH)) <$> chans)
        with ((fun q => (q, HIGH)) <$> ((fun k => pin_assignments !!! k) <$> chans))
        by (rewrite <- list_fmap_compose; reflexivity).
      replace ((fun k => (pin_assignments !!! k, LOW)) <$> chans)
        with ((fun q => (q, LOW)) <$> ((fun k => pin_assignments !!! k) <$> chans))
        by (rewrite <- list_fmap_compose; reflexivity).
      generalize ((fun k => pin_assignments !!! k) <$> chans). intros ps.
      rewrite replay_app.
      destruct (decide (p ∈ ps)) as [Hin | Hout].
      * apply replay_level.
        -- apply Forall_fmap, Forall_forall. intros q _. reflexivity.
        -- rewrite <- list_fmap_compose.
           replace (fst ∘ (fun q : Z => (q, LOW))) with (@id Z) by reflexivity.
           rewrite list_fmap_id. exact Hin.
      * assert (Hfst : forall v : bool, ((fun q : Z => (q, v)) <$> ps).*1 = ps).
        { intros v. rewrite <- list_fmap_compose.
          replace (fst ∘ (fun q : Z => (q, v))) with (@id Z) by reflexivity.
          apply list_fmap_id. }
        rewrite !replay_other by (rewrite Hfst; exact Hout).
        apply Hlow. exact Hp.
    + intros p Hp. cbn [pins set_clock_tick].
      rewrite flat_map_concat.
      apply replay_pieces; [| exact Hlow | exact Hp].
      intros ws m Hws Hm q Hq.
      apply list_elem_of_fmap in Hws as (k & -> & _).
      destruct (_ =? _); [apply pulse_piece; assumption | apply Hm; exact Hq].
  - destruct (timerIsr_above s Hgt) as [E ->]. rewrite E.
    destruct (fallback_fields s) as (Hct & _ & _ & Hal & _).
    rewrite Hct. repeat split; try lia; assumption.
Qed.

Lemma timer_handlers_rest_witness :
  let s := set_clock_tick 94 initial_state in
  all_low (timerIsr s) /\ all_low (Legacy.timerIsr s)
  /\ all_low (zero_cross_int s) /\ all_low (Legacy.zero_cross_int s)
  /\ 0 <= clock_tick (timerIsr s) <= off s
  /\ 0 <= clock_tick (Legacy.timerIsr s) <= off s.
Proof.
  apply (timer_handlers_rest (set_clock_tick 94 initial_state)).
  - unfold byte. cbn. lia.
  - unfold byte. cbn. lia.
  - intros p Hp.
    repeat (apply elem_of_cons in Hp as [-> | Hp]; [vm_compute; reflexivity |]).
    inversion Hp.
Defined.
